(** * web3-hooks-react: the ERC20 hooks and the error normaliser

    A shallow embedding of [src/helpers.ts] (asError) and [src/useERC20.ts]
    (useERC20, useContract, useApprove, useTransfer, useTransferFrom).

    The TypeScript code runs on three pieces of machinery that are not part of
    the repository: the ECMAScript built-ins it calls ([instanceof],
    [new Error], promises with [then]/[catch]), React's [useState], and the
    ethers contract object.  Each of them is modelled below next to the place
    the source uses it, with the clause of ECMA-262 it follows. *)

From stdpp Require Import gmap strings list pretty.

Set Default Proof Using "Type".

(** ** ECMAScript values *)

(** The runtime the concrete runs at the end use: integer Numbers printed
    in decimal, and an engine's message for a failed string conversion. *)
Definition decimal : Z → string := pretty.
Definition conversion_message : string :=
  "Cannot convert a Symbol value to a string".

Section Runtime.

(** Numbers are IEEE doubles; the code never computes with them, it only
    converts them to strings.  The type and [Number::toString] are taken as
    given, and so is the text an engine puts in the [TypeError] raised by a
    failed string conversion (ECMA-262 leaves it to the implementation). *)
Context {Number : Type}.
Variable NumberToString : Number → string.
Variable TypeErrorMessage : string.

Abbreviation loc := nat (only parsing).

Inductive value : Type :=
  | VUndefined
  | VNull
  | VBool (b : bool)
  | VNumber (n : Number)
  | VBigInt (z : Z)
  | VString (s : string)
  | VSymbol (description : option string)
  | VObject (l : loc).

(** What converting an object to a string does (ToPrimitive with hint
    string, then ToString, ECMA-262 7.1.1 and 7.1.17): the object's own
    [toString]/[valueOf] decide.  [ConvString s]: the conversion yields [s]
    ("[object Object]" for a plain object).  [ConvThrow v]: one of the
    methods throws [v].  [ConvTypeError]: no method yields a primitive that
    converts (an object without prototype, a [toString] returning a Symbol). *)
Inductive conversion : Type :=
  | ConvString (s : string)
  | ConvThrow (v : value)
  | ConvTypeError.

(** An object of the heap, as far as this code can observe it:
    whether [Error.prototype] is on its prototype chain, its own [message]
    property, and its string conversion. *)
Record object : Type := Object {
  instance_of_Error : bool;
  message : option value;
  to_primitive : conversion;
}.

(** Objects live in a heap and values refer to them by location, so that
    [===] on objects is equality of locations.  Allocation appends. *)
Abbreviation heap := (list object).

(** Completion of an evaluation: a value, or a thrown value. *)
Inductive completion (A : Type) : Type :=
  | Normal (a : A)
  | Throw (v : value).
Arguments Normal {A} a.
Arguments Throw {A} v.

Definition alloc (o : object) (h : heap) : value * heap :=
  (VObject (length h), h ++ [o]).

(** [Error.prototype.toString] (ECMA-262 20.5.3.4) for an object whose
    [name] is inherited. *)
Definition error_toString (name : string) (msg : option string) : string :=
  match msg with
  | None => name
  | Some m => if decide (m = "") then name else name +:+ ": " +:+ m
  end.

Definition error_object (name : string) (msg : option string) : object :=
  {| instance_of_Error := true;
     message := VString <$> msg;
     to_primitive := ConvString (error_toString name msg) |}.

(** "Throw a TypeError exception": a fresh [TypeError] object is thrown. *)
Definition throw_TypeError {A} (h : heap) : completion A * heap :=
  let '(e, h') := alloc (error_object "TypeError" (Some TypeErrorMessage)) h in
  (Throw e, h').

(** ToString (ECMA-262 7.1.17).  A location outside the heap does not occur
    in a well-formed value; it is given the behaviour of [ConvTypeError]. *)
Definition ToString (v : value) (h : heap) : completion string * heap :=
  match v with
  | VUndefined => (Normal "undefined", h)
  | VNull => (Normal "null", h)
  | VBool b => (Normal (if b then "true" else "false"), h)
  | VNumber n => (Normal (NumberToString n), h)
  | VBigInt z => (Normal (pretty z), h)
  | VString s => (Normal s, h)
  | VSymbol _ => throw_TypeError h
  | VObject l =>
      match to_primitive <$> h !! l with
      | Some (ConvString s) => (Normal s, h)
      | Some (ConvThrow e) => (Throw e, h)
      | Some ConvTypeError | None => throw_TypeError h
      end
  end.

(** [v instanceof Error] (ECMA-262 13.10.2, OrdinaryHasInstance): false for
    every primitive, and for an object a walk up its prototype chain. *)
Definition instanceof_Error (h : heap) (v : value) : bool :=
  match v with
  | VObject l =>
      match h !! l with
      | Some o => instance_of_Error o
      | None => false
      end
  | _ => false
  end.

(** [new Error(message)] (ECMA-262 20.5.1.1): when [message] is not
    undefined it is converted with ToString, which may throw, and stored as
    the own property [message]; for undefined no own property is made. *)
Definition new_Error (msg : value) (h : heap) : completion value * heap :=
  match msg with
  | VUndefined =>
      let '(e, h') := alloc (error_object "Error" None) h in (Normal e, h')
  | _ =>
      match ToString msg h with
      | (Normal s, h') =>
          let '(e, h'') := alloc (error_object "Error" (Some s)) h' in
          (Normal e, h'')
      | (Throw t, h') => (Throw t, h')
      end
  end.

(** [helpers.ts]:
    [export function asError(e) { return e instanceof Error ? e : new Error(e) }] *)
Definition asError (e : value) (h : heap) : completion value * heap :=
  if instanceof_Error h e then (Normal e, h) else new_Error e h.


(** The [message] a program reads off an Error object [v]: the own property,
    if there is one. *)
Definition own_message (h : heap) (v : value) : option value :=
  match v with
  | VObject l => h !! l ≫= message
  | _ => None
  end.


(** ** Promises

    A promise table and a queue of reaction jobs, after ECMA-262 27.2.  The
    callbacks the hooks register are the two closures of [useContract]; they
    are named by [handler] and run by [run_handler] below. *)

Abbreviation pid := nat (only parsing).

Inductive outcome : Type :=
  | Fulfilled (v : value)
  | Rejected (reason : value).

Inductive handler : Type :=
  | SetResult (k : nat)
  | SetErr (k : nat).

(** A reaction registered by [then]: the two callbacks ([None] where the
    caller passed none) and the promise [then] returned. *)
Record reaction : Type := Reaction {
  on_fulfilled : option handler;
  on_rejected : option handler;
  derived : pid;
}.

Inductive pstate : Type :=
  | Pending (rs : list reaction)
  | Settled (o : outcome).

(** ** The data of useERC20.ts *)

Record useERC20Params : Type := {
  ethereum : value;
  contractAddress : string;
}.

Record TransactionResult : Type := {
  transaction : option value;
  error : option value;
}.

(** The bound contract ([ERC20Abi], built by the generated factory and
    ethers): its identity is the address and the connection it was bound to. *)
Record ERC20Abi : Type := {
  abi_address : string;
  abi_connection : value;
}.

(** The calls a bound contract offers, with their arguments. *)
Inductive request : Type :=
  | ReqName
  | ReqSymbol
  | ReqDecimals
  | ReqTotalSupply
  | ReqBalanceOf (owner : value)
  | ReqAllowance (owner spender : value)
  | ReqApprove (spender amount : value)
  | ReqTransfer (to amount : value)
  | ReqTransferFrom (from to amount : value).

(** ** State

    [txns] and [contracts] are the [useState] cells of the hook instances,
    keyed by instance; a cell of [txns] that is absent reads [undefined].
    [calls] is the network layer's list of contract calls it has issued. *)
Record state : Type := State {
  heap_of : heap;
  promises : list pstate;
  jobs : list (reaction * outcome);
  txns : gmap nat TransactionResult;
  contracts : gmap nat ERC20Abi;
  calls : list (pid * ERC20Abi * request);
}.

Definition init : state := State [] [] [] ∅ ∅ [].

Definition set_heap (h : heap) (s : state) : state :=
  State h (promises s) (jobs s) (txns s) (contracts s) (calls s).
Definition set_promises (ps : list pstate) (s : state) : state :=
  State (heap_of s) ps (jobs s) (txns s) (contracts s) (calls s).
Definition set_jobs (js : list (reaction * outcome)) (s : state) : state :=
  State (heap_of s) (promises s) js (txns s) (contracts s) (calls s).
Definition set_txns (t : gmap nat TransactionResult) (s : state) : state :=
  State (heap_of s) (promises s) (jobs s) t (contracts s) (calls s).
Definition set_contracts (c : gmap nat ERC20Abi) (s : state) : state :=
  State (heap_of s) (promises s) (jobs s) (txns s) c (calls s).
Definition set_calls (c : list (pid * ERC20Abi * request)) (s : state) : state :=
  State (heap_of s) (promises s) (jobs s) (txns s) (contracts s) c.

(** Synchronous code is a state transformer with a result. *)
Definition M (A : Type) : Type := state → A * state.

Definition ret {A} (a : A) : M A := λ s, (a, s).
Definition bind {A B} (m : M A) (f : A → M B) : M B :=
  λ s, let '(a, s') := m s in f a s'.

Notation "x <- m ;; k" := (bind m (λ x, k))
  (at level 100, m at next level, right associativity).
Arguments bind : simpl never.

(** A new pending promise. *)
Definition new_promise : M pid :=
  λ s, (length (promises s), set_promises (promises s ++ [Pending []]) s).

(** Settling a pending promise queues one job per reaction, in the order
    they were registered (27.2.1.4, 27.2.1.7, 27.2.1.8); settling a settled
    promise does nothing. *)
Definition settle (p : pid) (o : outcome) (s : state) : state :=
  match promises s !! p with
  | Some (Pending rs) =>
      set_jobs (jobs s ++ ((λ r, (r, o)) <$> rs))
        (set_promises (<[p := Settled o]> (promises s)) s)
  | _ => s
  end.

(** [p.then(onFulfilled, onRejected)] (27.2.5.4): the result promise is
    made, and the reaction is stored with a pending [p] or queued at once
    for a settled one. *)
Definition perform_then (p : pid) (onF onR : option handler) : M pid :=
  d <- new_promise ;;
  λ s,
    let r := Reaction onF onR d in
    (d, match promises s !! p with
        | Some (Pending rs) =>
            set_promises (<[p := Pending (rs ++ [r])]> (promises s)) s
        | Some (Settled o) => set_jobs (jobs s ++ [(r, o)]) s
        | None => s
        end).

Definition then_ (p : pid) (h : handler) : M pid := perform_then p (Some h) None.
Definition catch_ (p : pid) (h : handler) : M pid := perform_then p None (Some h).

(** ** React's useState

    The first render stores the initial value, later renders return the cell;
    the setter replaces the cell, and the next render reads the last value
    set. *)
Definition useState_contract (k : nat) (initial : ERC20Abi) : M ERC20Abi :=
  λ s, match contracts s !! k with
       | Some c => (c, s)
       | None => (initial, set_contracts (<[k := initial]> (contracts s)) s)
       end.

Definition useState_txn (k : nat) : M (option TransactionResult) :=
  λ s, (txns s !! k, s).

Definition setTxn (k : nat) (r : TransactionResult) (s : state) : state :=
  set_txns (<[k := r]> (txns s)) s.

(** ** The ethers contract

    [ERC20Abi__factory.connect] builds the handle without any call; each
    method of the handle issues a call and returns its promise, which the
    network layer settles later ([Settle] below). *)
Definition connect (addr : string) (e : value) : ERC20Abi :=
  {| abi_address := addr; abi_connection := e |}.

Definition contract_call (c : ERC20Abi) (r : request) : M pid :=
  p <- new_promise ;;
  λ s, (p, set_calls (calls s ++ [(p, c, r)]) s).

Definition contract_name (c : ERC20Abi) : M pid := contract_call c ReqName.
Definition contract_symbol (c : ERC20Abi) : M pid := contract_call c ReqSymbol.
Definition contract_decimals (c : ERC20Abi) : M pid := contract_call c ReqDecimals.
Definition contract_totalSupply (c : ERC20Abi) : M pid :=
  contract_call c ReqTotalSupply.
Definition contract_balanceOf (c : ERC20Abi) (owner : value) : M pid :=
  contract_call c (ReqBalanceOf owner).
Definition contract_allowance (c : ERC20Abi) (owner spender : value) : M pid :=
  contract_call c (ReqAllowance owner spender).
Definition contract_approve (c : ERC20Abi) (spender amount : value) : M pid :=
  contract_call c (ReqApprove spender amount).
Definition contract_transfer (c : ERC20Abi) (to amount : value) : M pid :=
  contract_call c (ReqTransfer to amount).
Definition contract_transferFrom (c : ERC20Abi) (from to amount : value) : M pid :=
  contract_call c (ReqTransferFrom from to amount).

(** ** useERC20.ts *)

(** [interface ERC20] *)
Record ERC20 : Type := {
  name : M pid;
  symbol : M pid;
  decimals : M pid;
  totalSupply : M pid;
  balanceOf : value → M pid;
  allowance : value → value → M pid;
  approve : value → value → M pid;
  transfer : value → value → M pid;
  transferFrom : value → value → value → M pid;
}.

(** [useERC20].  [k] names the place in a mounted component where the hook
    is called; the [useState] cells of the hook belong to it. *)
Definition useERC20 (k : nat) (params : useERC20Params) : M ERC20 :=
  contract <- useState_contract k
                (connect (contractAddress params) (ethereum params)) ;;
  ret {| name := contract_name contract;
         symbol := contract_symbol contract;
         decimals := contract_decimals contract;
         totalSupply := contract_totalSupply contract;
         balanceOf := contract_balanceOf contract;
         allowance := contract_allowance contract;
         approve := contract_approve contract;
         transfer := contract_transfer contract;
         transferFrom := contract_transferFrom contract |}.

(** The bodies of the closures [setResult] and [setErr] of [useContract]. *)
Definition setResult (k : nat) (tx : value) (s : state) : completion value * state :=
  (Normal VUndefined, setTxn k {| transaction := Some tx; error := None |} s).

Definition setErr (k : nat) (e : value) (s : state) : completion value * state :=
  match asError e (heap_of s) with
  | (Normal err, h') =>
      (Normal VUndefined,
       setTxn k {| transaction := None; error := Some err |} (set_heap h' s))
  | (Throw t, h') => (Throw t, set_heap h' s)
  end.

Definition run_handler (h : handler) (arg : value) (s : state)
    : completion value * state :=
  match h with
  | SetResult k => setResult k arg s
  | SetErr k => setErr k arg s
  end.

(** [useContract] *)
Definition useContract (k : nat) (params : useERC20Params)
    : M ((ERC20 * handler * handler) * option TransactionResult) :=
  contract <- useERC20 k params ;;
  txn <- useState_txn k ;;
  ret ((contract, SetResult k, SetErr k), txn).

(** [useApprove], [useTransfer], [useTransferFrom]: the arrow function [fn]
    has an expression body, so it returns the value of the chain. *)
Definition useApprove (k : nat) (params : useERC20Params)
    : M ((value → value → M pid) * option TransactionResult) :=
  r <- useContract k params ;;
  let '((contract, setResult, setErr), txn) := r in
  let fn (spender amount : value) : M pid :=
    p <- approve contract spender amount ;;
    p' <- then_ p setResult ;;
    catch_ p' setErr in
  ret (fn, txn).

Definition useTransfer (k : nat) (params : useERC20Params)
    : M ((value → value → M pid) * option TransactionResult) :=
  r <- useContract k params ;;
  let '((contract, setResult, setErr), txn) := r in
  let fn (to amount : value) : M pid :=
    p <- transfer contract to amount ;;
    p' <- then_ p setResult ;;
    catch_ p' setErr in
  ret (fn, txn).

Definition useTransferFrom (k : nat) (params : useERC20Params)
    : M ((value → value → value → M pid) * option TransactionResult) :=
  r <- useContract k params ;;
  let '((contract, setResult, setErr), txn) := r in
  let fn (from to amount : value) : M pid :=
    p <- transferFrom contract from to amount ;;
    p' <- then_ p setResult ;;
    catch_ p' setErr in
  ret (fn, txn).

(** ** Running

    A reaction job (27.2.2.1): without a callback the outcome passes to the
    derived promise; with one, the callback's completion settles it.  The
    callbacks here return [undefined], so resolving never meets a thenable. *)
Definition payload (o : outcome) : value :=
  match o with Fulfilled v => v | Rejected r => r end.

Definition run_job (j : reaction * outcome) (s : state) : state :=
  let '(r, o) := j in
  let h := match o with
           | Fulfilled _ => on_fulfilled r
           | Rejected _ => on_rejected r
           end in
  match h with
  | None => settle (derived r) o s
  | Some h =>
      match run_handler h (payload o) s with
      | (Normal v, s') => settle (derived r) (Fulfilled v) s'
      | (Throw t, s') => settle (derived r) (Rejected t) s'
      end
  end.

(** The oldest queued job runs. *)
Definition tick (s : state) : state :=
  match jobs s with
  | [] => s
  | j :: js => run_job j (set_jobs js s)
  end.

Definition call_ids (s : state) : list pid := (λ c, c.1.1) <$> calls s.

(** What can happen to a page that uses the hooks. *)
Inductive event : Type :=
  | CallApprove (k : nat) (params : useERC20Params) (spender amount : value)
  | CallTransfer (k : nat) (params : useERC20Params) (to amount : value)
  | CallTransferFrom (k : nat) (params : useERC20Params) (from to amount : value)
  | CallERC20 (k : nat) (params : useERC20Params) (r : request)
  | Settle (p : pid) (o : outcome)
  | Tick.

(** The member of the object [useERC20] returns that a request names. *)
Definition member (c : ERC20) (r : request) : M pid :=
  match r with
  | ReqName => name c
  | ReqSymbol => symbol c
  | ReqDecimals => decimals c
  | ReqTotalSupply => totalSupply c
  | ReqBalanceOf owner => balanceOf c owner
  | ReqAllowance owner spender => allowance c owner spender
  | ReqApprove spender amount => approve c spender amount
  | ReqTransfer to amount => transfer c to amount
  | ReqTransferFrom from to amount => transferFrom c from to amount
  end.

(** [CallApprove] and its siblings render the hook and invoke the trigger it
    returns; [CallERC20] renders [useERC20] and invokes a member; [Settle]
    is the network layer settling the promise of a call it issued; [Tick]
    runs one reaction job. *)
Definition step (e : event) (s : state) : state :=
  match e with
  | CallApprove k params spender amount =>
      let '((fn, _), s1) := useApprove k params s in (fn spender amount s1).2
  | CallTransfer k params to amount =>
      let '((fn, _), s1) := useTransfer k params s in (fn to amount s1).2
  | CallTransferFrom k params from to amount =>
      let '((fn, _), s1) := useTransferFrom k params s in (fn from to amount s1).2
  | CallERC20 k params r =>
      let '(c, s1) := useERC20 k params s in (member c r s1).2
  | Settle p o => if decide (p ∈ call_ids s) then settle p o s else s
  | Tick => tick s
  end.

Definition run (es : list event) (s : state) : state :=
  foldl (λ s e, step e s) s es.

(** Reaction jobs run until none is queued, as they do before the engine
    takes the next task.  Each job removes itself and queues at most the
    reactions of the promise it settles, so [job_budget] ticks suffice. *)
Definition pending_reactions (p : pstate) : nat :=
  match p with Pending rs => length rs | Settled _ => 0 end.

Definition job_budget (s : state) : nat :=
  length (jobs s) + sum_list_with pending_reactions (promises s).

Fixpoint drain_fuel (n : nat) (s : state) : state :=
  match n with
  | 0 => s
  | S n => match jobs s with [] => s | _ => drain_fuel n (tick s) end
  end.

Definition drain (s : state) : state := drain_fuel (job_budget s) s.

(** The result a write hook returns next to its trigger when it is
    rendered in state [s]: the [txn] of [useContract]. *)
Definition result (k : nat) (params : useERC20Params) (s : state)
    : option TransactionResult :=
  (useContract k params s).1.2.

(** ** Vocabulary of the statements *)

(** The three promises one invocation of a trigger creates, from the call's
    promise [p] on: [p] with the reaction of [.then(setResult)], [p + 1]
    with the reaction of [.catch(setErr)], and [p + 2], the value of the
    chain. *)
Definition chain (k : nat) (p : pid) : list pstate :=
  [ Pending [Reaction (Some (SetResult k)) None (p + 1)];
    Pending [Reaction None (Some (SetErr k)) (p + 2)];
    Pending [] ].

(** The contract a hook instance is bound to: the one of its first render. *)
Definition bound (k : nat) (params : useERC20Params) (s : state) : ERC20Abi :=
  default (connect (contractAddress params) (ethereum params)) (contracts s !! k).

(** The state after a trigger of instance [k] issued the call [r]. *)
Definition issued (k : nat) (c : ERC20Abi) (r : request) (s : state) : state :=
  State (heap_of s) (promises s ++ chain k (length (promises s))) (jobs s)
        (txns s) (<[k := c]> (contracts s))
        (calls s ++ [(length (promises s), c, r)]).

(** The record [setResult] or [setErr] stores for an outcome of the call;
    none when [asError] throws. *)
Definition recorded (o : outcome) (h : heap) : option TransactionResult :=
  match o with
  | Fulfilled tx => Some {| transaction := Some tx; error := None |}
  | Rejected e =>
      match asError e h with
      | (Normal err, _) => Some {| transaction := None; error := Some err |}
      | (Throw _, _) => None
      end
  end.

(** An event that invokes the trigger of one of the three write hooks of
    instance [k]. *)
Definition write_call (k : nat) (e : event) : bool :=
  match e with
  | CallApprove k' _ _ _ | CallTransfer k' _ _ _ | CallTransferFrom k' _ _ _ _ =>
      bool_decide (k' = k)
  | _ => false
  end.

Definition is_read (r : request) : bool :=
  match r with
  | ReqName | ReqSymbol | ReqDecimals | ReqTotalSupply
  | ReqBalanceOf _ | ReqAllowance _ _ => true
  | _ => false
  end.

Definition settles (p : pid) (e : event) : bool :=
  match e with
  | Settle q _ => bool_decide (q = p)
  | _ => false
  end.

Definition at_most_one_field (r : TransactionResult) : Prop :=
  transaction r = None ∨ error r = None.

(** Invariants of the promise table.  Every promise a reaction or a job
    points to exists, and so does every promise of a call. *)
Definition table_wf (s : state) : Prop :=
  (∀ q rs r, promises s !! q = Some (Pending rs) → r ∈ rs →
             derived r < length (promises s))
  ∧ (∀ j, j ∈ jobs s → derived j.1 < length (promises s))
  ∧ (∀ p, p ∈ call_ids s → p < length (promises s)).

Definition outside (p d : pid) : Prop := d < p ∨ p + 2 < d.

(** The chain of the call [p] is as its trigger left it, and nothing else
    points into it. *)
Definition chain_inv (k : nat) (p : pid) (s : state) : Prop :=
  promises s !! p = Some (Pending [Reaction (Some (SetResult k)) None (p + 1)])
  ∧ promises s !! (p + 1)
    = Some (Pending [Reaction None (Some (SetErr k)) (p + 2)])
  ∧ promises s !! (p + 2) = Some (Pending [])
  ∧ (∀ j, j ∈ jobs s → outside p (derived j.1))
  ∧ (∀ q rs r, promises s !! q = Some (Pending rs) → r ∈ rs →
               q ≠ p → q ≠ p + 1 → outside p (derived r))
  ∧ p ∈ call_ids s
  ∧ (∀ q, q ∈ call_ids s → q ≠ p + 1 ∧ q ≠ p + 2).

(** The hook instance whose cell a callback writes. *)
Definition handler_instance (h : handler) : nat :=
  match h with SetResult k | SetErr k => k end.

(** A reaction that carries a callback of instance [k]. *)
Definition reaction_for (k : nat) (r : reaction) : Prop :=
  ∃ h, (on_fulfilled r = Some h ∨ on_rejected r = Some h)
       ∧ handler_instance h = k.

(** No call of instance [k] is in flight: no registered reaction and no
    queued job would run a callback of [k]. *)
Definition no_call_in_flight (k : nat) (s : state) : Prop :=
  (∀ q rs r, promises s !! q = Some (Pending rs) → r ∈ rs → ¬ reaction_for k r)
  ∧ (∀ j, j ∈ jobs s → ¬ reaction_for k j.1).

(** Every error field of a stored result refers to an Error of the heap. *)
Definition errors_are_Errors (s : state) : Prop :=
  ∀ k r e, txns s !! k = Some r → error r = Some e →
           instanceof_Error (heap_of s) e = true.

(** What running the callback for an outcome of a call of instance [k]
    does to the state: [setResult] for a fulfilment, [setErr] for a
    rejection. *)
Definition store (k : nat) (o : outcome) (s : state) : state :=
  (run_handler
     (match o with Fulfilled _ => SetResult k | Rejected _ => SetErr k end)
     (payload o) s).2.

(** An event that invokes a trigger or a member of the useERC20 object. *)
Definition is_call (e : event) : bool :=
  match e with
  | Settle _ _ | Tick => false
  | _ => true
  end.

(** ** Facts about asError *)

Lemma ToString_Normal_heap v h s h' :
  ToString v h = (Normal s, h') → h' = h.
Proof.
  destruct v; simpl; try (intros [= _ <-]; done); try discriminate.
  destruct (h !! l) as [[? ? []]|]; simpl; first [intros [= _ <-]; done | discriminate].
Qed.

Lemma instanceof_Error_alloc h name msg :
  instanceof_Error (h ++ [error_object name msg]) (VObject (length h)) = true.
Proof.
  simpl. rewrite lookup_app_r by lia. by rewrite Nat.sub_diag.
Qed.

Lemma own_message_alloc h name msg :
  own_message (h ++ [error_object name msg]) (VObject (length h))
  = VString <$> msg.
Proof.
  simpl. rewrite lookup_app_r by lia. by rewrite Nat.sub_diag.
Qed.

Lemma new_Error_Normal x h s :
  ToString x h = (Normal s, h) →
  new_Error x h =
    (Normal (VObject (length h)),
     h ++ [error_object "Error"
             (match x with VUndefined => None | _ => Some s end)]).
Proof.
  intros Hs. destruct x; simpl in *; simplify_eq; try done.
  by rewrite Hs.
Qed.

(** A result of asError is an Error of the heap it returns. *)
Lemma asError_result_instanceof x h e h' :
  asError x h = (Normal e, h') → instanceof_Error h' e = true.
Proof.
  unfold asError. destruct (instanceof_Error h x) eqn:Hi.
  - by intros [= <- <-].
  - intros Hn.
    destruct (ToString x h) as [[s|t] h1] eqn:Hs.
    + pose proof (ToString_Normal_heap _ _ _ _ Hs) as ->.
      rewrite (new_Error_Normal _ _ _ Hs) in Hn.
      injection Hn as <- <-. apply instanceof_Error_alloc.
    + destruct x; simpl in *; try discriminate; by rewrite Hs in Hn.
Qed.

(** C4 (amended).  For an input [x] that is not an Error and whose string
    conversion yields [s], asError returns a newly made Error object; its
    message is the string [s], not [x] itself, and for [undefined] it has no
    own message.  A string is its own conversion, so a string input is
    carried as it is. *)
Theorem asError_message_is_string_conversion x h s h1 :
  instanceof_Error h x = false →
  ToString x h = (Normal s, h1) →
  let e := VObject (length h) in
  ∃ h', asError x h = (Normal e, h')
    ∧ instanceof_Error h e = false
    ∧ instanceof_Error h' e = true
    ∧ own_message h' e
      = match x with VUndefined => None | _ => Some (VString s) end
    ∧ (∀ s0, x = VString s0 → own_message h' e = Some x).
Proof.
  intros Hi Hs e.
  pose proof (ToString_Normal_heap _ _ _ _ Hs) as ->.
  eexists. unfold asError. rewrite Hi.
  split; [by apply new_Error_Normal|].
  split; [simpl; by rewrite lookup_ge_None_2|].
  split; [apply instanceof_Error_alloc|].
  split.
  - unfold e. rewrite own_message_alloc. by destruct x.
  - intros s0 ->. unfold e. rewrite own_message_alloc. simpl in *. by simplify_eq.
Qed.


(** C6.  asError throws on a Symbol: [new Error(e)] converts its argument
    to a string, and that conversion raises a TypeError for a Symbol. *)
Theorem asError_Symbol_throws d h :
  asError (VSymbol d) h
  = (Throw (VObject (length h)),
     h ++ [error_object "TypeError" (Some TypeErrorMessage)]).
Proof. reflexivity. Qed.

(** The same for an object whose conversion to a string fails. *)
Lemma asError_unconvertible_throws l o h :
  h !! l = Some o →
  instance_of_Error o = false →
  to_primitive o = ConvTypeError →
  asError (VObject l) h
  = (Throw (VObject (length h)),
     h ++ [error_object "TypeError" (Some TypeErrorMessage)]).
Proof.
  intros Hl Hi Hc. unfold asError. simpl. rewrite Hl, Hi. simpl. by rewrite Hc.
Qed.


(** ** The hooks, unfolded *)

Lemma useERC20_unfold k params s :
  useERC20 k params s
  = ({| name := contract_name (bound k params s);
        symbol := contract_symbol (bound k params s);
        decimals := contract_decimals (bound k params s);
        totalSupply := contract_totalSupply (bound k params s);
        balanceOf := contract_balanceOf (bound k params s);
        allowance := contract_allowance (bound k params s);
        approve := contract_approve (bound k params s);
        transfer := contract_transfer (bound k params s);
        transferFrom := contract_transferFrom (bound k params s) |},
     set_contracts (<[k := bound k params s]> (contracts s)) s).
Proof.
  unfold useERC20, bind, ret, useState_contract, bound.
  destruct (contracts s !! k) as [c|] eqn:Hc; simpl; [|done].
  rewrite insert_id by done. by destruct s.
Qed.

Lemma useContract_unfold k params s :
  useContract k params s
  = (((useERC20 k params s).1, SetResult k, SetErr k, txns s !! k),
     set_contracts (<[k := bound k params s]> (contracts s)) s).
Proof.
  unfold useContract, bind. by rewrite useERC20_unfold.
Qed.

Lemma result_lookup k params s : result k params s = txns s !! k.
Proof.
  unfold result. by rewrite useContract_unfold.
Qed.

Lemma chain_run k c r s :
  (p <- contract_call c r ;; p' <- then_ p (SetResult k) ;; catch_ p' (SetErr k)) s
  = (length (promises s) + 2,
     State (heap_of s) (promises s ++ chain k (length (promises s))) (jobs s)
           (txns s) (contracts s) (calls s ++ [(length (promises s), c, r)])).
Proof.
  destruct s as [h ps js t cs cl].
  unfold bind, contract_call, then_, catch_, perform_then, bind, new_promise,
    set_promises, set_calls, set_jobs, chain; simpl.
  rewrite !length_app; simpl.
  assert (((ps ++ [Pending []]) ++ [Pending []]) !! length ps
          = Some (Pending [])) as ->.
  { rewrite <-app_assoc. rewrite lookup_app_r by lia.
    by rewrite Nat.sub_diag. }
  set (r1 := Reaction (Some (SetResult k)) None (length ps + 1)).
  assert (<[length ps:=Pending ([] ++ [r1])]> ((ps ++ [Pending []]) ++ [Pending []])
          = ps ++ [Pending [r1]; Pending []]) as ->.
  { rewrite <-app_assoc. rewrite insert_app_r_alt by lia.
    by rewrite Nat.sub_diag. }
  simpl. rewrite !length_app; simpl.
  assert ((( ps ++ [Pending [r1]; Pending []]) ++ [Pending []]) !! (length ps + 1)
          = Some (Pending [])) as ->.
  { rewrite <-app_assoc. rewrite lookup_app_r by lia.
    by replace (length ps + 1 - length ps) with 1 by lia. }
  do 2 f_equal.
  rewrite <-app_assoc. rewrite insert_app_r_alt by lia.
  by replace (length ps + 1 - length ps) with 1 by lia.
Qed.

Lemma useApprove_unfold k params s :
  useApprove k params s
  = ((λ spender amount,
        p <- contract_approve (bound k params s) spender amount ;;
        p' <- then_ p (SetResult k) ;; catch_ p' (SetErr k),
      txns s !! k),
     set_contracts (<[k := bound k params s]> (contracts s)) s).
Proof.
  unfold useApprove. unfold bind at 1.
  by rewrite useContract_unfold, useERC20_unfold.
Qed.

Lemma useTransfer_unfold k params s :
  useTransfer k params s
  = ((λ to amount,
        p <- contract_transfer (bound k params s) to amount ;;
        p' <- then_ p (SetResult k) ;; catch_ p' (SetErr k),
      txns s !! k),
     set_contracts (<[k := bound k params s]> (contracts s)) s).
Proof.
  unfold useTransfer. unfold bind at 1.
  by rewrite useContract_unfold, useERC20_unfold.
Qed.

Lemma useTransferFrom_unfold k params s :
  useTransferFrom k params s
  = ((λ from to amount,
        p <- contract_transferFrom (bound k params s) from to amount ;;
        p' <- then_ p (SetResult k) ;; catch_ p' (SetErr k),
      txns s !! k),
     set_contracts (<[k := bound k params s]> (contracts s)) s).
Proof.
  unfold useTransferFrom. unfold bind at 1.
  by rewrite useContract_unfold, useERC20_unfold.
Qed.

(** The second component of what each write hook returns is [result]. *)
Lemma hooks_return_result k params s :
  (useApprove k params s).1.2 = result k params s
  ∧ (useTransfer k params s).1.2 = result k params s
  ∧ (useTransferFrom k params s).1.2 = result k params s.
Proof.
  rewrite useApprove_unfold, useTransfer_unfold, useTransferFrom_unfold.
  by rewrite result_lookup.
Qed.

Lemma step_CallApprove k params spender amount s :
  step (CallApprove k params spender amount) s
  = issued k (bound k params s) (ReqApprove spender amount) s.
Proof.
  unfold step. rewrite useApprove_unfold.
  unfold contract_approve. by rewrite chain_run.
Qed.

Lemma step_CallTransfer k params to amount s :
  step (CallTransfer k params to amount) s
  = issued k (bound k params s) (ReqTransfer to amount) s.
Proof.
  unfold step. rewrite useTransfer_unfold.
  unfold contract_transfer. by rewrite chain_run.
Qed.

Lemma step_CallTransferFrom k params from to amount s :
  step (CallTransferFrom k params from to amount) s
  = issued k (bound k params s) (ReqTransferFrom from to amount) s.
Proof.
  unfold step. rewrite useTransferFrom_unfold.
  unfold contract_transferFrom. by rewrite chain_run.
Qed.

Lemma step_write_call k e s :
  write_call k e = true → ∃ c r, step e s = issued k c r s.
Proof.
  destruct e; simpl; try discriminate; intros ->%bool_decide_eq_true.
  - eexists _, _. apply step_CallApprove.
  - eexists _, _. apply step_CallTransfer.
  - eexists _, _. apply step_CallTransferFrom.
Qed.

Lemma step_CallERC20 k params r s :
  step (CallERC20 k params r) s
  = State (heap_of s) (promises s ++ [Pending []]) (jobs s) (txns s)
          (<[k := bound k params s]> (contracts s))
          (calls s ++ [(length (promises s), bound k params s, r)]).
Proof.
  unfold step. rewrite useERC20_unfold. by destruct r.
Qed.

(** ** Settling and running jobs *)

Lemma settle_frame p o s :
  heap_of (settle p o s) = heap_of s ∧ txns (settle p o s) = txns s
  ∧ contracts (settle p o s) = contracts s ∧ calls (settle p o s) = calls s
  ∧ length (promises (settle p o s)) = length (promises s).
Proof.
  unfold settle. destruct (promises s !! p) as [[rs|o']|]; simpl; try done.
  by rewrite length_insert.
Qed.

Lemma txns_settle p o s : txns (settle p o s) = txns s.
Proof. apply settle_frame. Qed.

Lemma heap_of_settle p o s : heap_of (settle p o s) = heap_of s.
Proof. apply settle_frame. Qed.

Lemma run_handler_frame h v s :
  promises (run_handler h v s).2 = promises s
  ∧ jobs (run_handler h v s).2 = jobs s
  ∧ calls (run_handler h v s).2 = calls s.
Proof.
  destruct h; simpl; [done|].
  unfold setErr. by destruct (asError v (heap_of s)) as [[e|t] h'].
Qed.

(** A job runs its callback, which leaves the promise table alone, and
    settles the derived promise. *)
Lemma run_job_shape r o s :
  ∃ o' s', run_job (r, o) s = settle (derived r) o' s'
    ∧ promises s' = promises s ∧ jobs s' = jobs s ∧ calls s' = calls s.
Proof.
  unfold run_job.
  destruct (match o with Fulfilled _ => on_fulfilled r | Rejected _ => on_rejected r end)
    as [h|]; [|by eauto 10].
  pose proof (run_handler_frame h (payload o) s) as (?&?&?).
  destruct (run_handler h (payload o) s) as [[v|t] s']; simpl in *; eauto 10.
Qed.

Lemma table_wf_ext s s' :
  promises s' = promises s → jobs s' = jobs s → calls s' = calls s →
  table_wf s → table_wf s'.
Proof.
  unfold table_wf, call_ids. by intros -> -> ->.
Qed.

Lemma chain_inv_ext k p s s' :
  promises s' = promises s → jobs s' = jobs s → calls s' = calls s →
  chain_inv k p s → chain_inv k p s'.
Proof.
  unfold chain_inv, call_ids. by intros -> -> ->.
Qed.

Lemma table_wf_settle d o s : table_wf s → table_wf (settle d o s).
Proof.
  intros (Hr & Hj & Hc). unfold settle.
  destruct (promises s !! d) as [[rs|o']|] eqn:Hd; [|done..].
  pose proof (lookup_lt_Some _ _ _ Hd) as Hlt.
  split_and!; simpl; rewrite ?length_insert.
  - intros q rs' r Hq Hin. destruct (decide (q = d)) as [->|Hne].
    + rewrite list_lookup_insert_eq in Hq by done. discriminate.
    + rewrite list_lookup_insert_ne in Hq by done. eauto.
  - intros j [Hin|Hin]%elem_of_app; [by auto|].
    apply list_elem_of_fmap in Hin as (r & -> & Hin). simpl. eauto.
  - done.
Qed.

Lemma chain_inv_settle k p d o s :
  outside p d → chain_inv k p s → chain_inv k p (settle d o s).
Proof.
  intros Hout (H0 & H1 & H2 & Hj & Hr & Hc & Hc'). unfold settle.
  destruct (promises s !! d) as [[rs|o']|] eqn:Hd;
    [|by unfold chain_inv..].
  pose proof (lookup_lt_Some _ _ _ Hd) as Hlt.
  assert (d ≠ p ∧ d ≠ p + 1 ∧ d ≠ p + 2) as (?&?&?)
    by (unfold outside in Hout; lia).
  split_and!; simpl; rewrite ?list_lookup_insert_ne by done; try done.
  - intros j [Hin|Hin]%elem_of_app; [by auto|].
    apply list_elem_of_fmap in Hin as (r & -> & Hin). simpl. eauto.
  - intros q rs' r Hq Hin. destruct (decide (q = d)) as [->|Hne].
    + rewrite list_lookup_insert_eq in Hq by done. discriminate.
    + rewrite list_lookup_insert_ne in Hq by done. eauto.
Qed.

Lemma table_wf_tick s : table_wf s → table_wf (tick s).
Proof.
  intros Hwf. unfold tick. destruct (jobs s) as [|[r o] js] eqn:Hjs; [done|].
  destruct (run_job_shape r o (set_jobs js s)) as (o' & s' & -> & Hp & Hj & Hc).
  apply table_wf_settle. destruct Hwf as (Hr & Hq & Hcl).
  split_and!; unfold call_ids; rewrite ?Hp, ?Hj, ?Hc; simpl; try done.
  intros j Hin. apply Hq. rewrite Hjs. by right.
Qed.

Lemma chain_inv_tick k p s : chain_inv k p s → chain_inv k p (tick s).
Proof.
  intros Hci. unfold tick. destruct (jobs s) as [|[r o] js] eqn:Hjs; [done|].
  destruct (run_job_shape r o (set_jobs js s)) as (o' & s' & -> & Hp & Hj & Hc).
  destruct Hci as (H0 & H1 & H2 & Hq & Hr & Hcl & Hcl').
  apply chain_inv_settle.
  - apply (Hq (r, o)). rewrite Hjs. by left.
  - unfold chain_inv, call_ids. rewrite Hp, Hj, Hc. simpl.
    split_and!; try done. intros j Hin. apply Hq. rewrite Hjs. by right.
Qed.

(** New promises at the end of the table. *)
Lemma table_wf_extend s s' new :
  promises s' = promises s ++ new → jobs s' = jobs s →
  call_ids s' = call_ids s ++ [length (promises s)] →
  0 < length new →
  (∀ i rs r, new !! i = Some (Pending rs) → r ∈ rs →
             derived r < length (promises s) + length new) →
  table_wf s → table_wf s'.
Proof.
  intros Hp Hj Hc Hlen Hnew (Hr & Hq & Hcl).
  unfold table_wf. rewrite Hp, Hj, Hc, length_app.
  split_and!.
  - intros q rs r [Hl|[_ Hl]]%lookup_app_Some Hin.
    + apply Nat.lt_lt_add_r. eauto.
    + eauto.
  - intros j Hin. apply Nat.lt_lt_add_r. eauto.
  - intros p [Hin|Hin%list_elem_of_singleton]%elem_of_app; [|lia].
    apply Nat.lt_lt_add_r. eauto.
Qed.

Lemma chain_inv_extend k p s s' new :
  promises s' = promises s ++ new → jobs s' = jobs s →
  call_ids s' = call_ids s ++ [length (promises s)] →
  (∀ i rs r, new !! i = Some (Pending rs) → r ∈ rs →
             length (promises s) ≤ derived r) →
  chain_inv k p s → chain_inv k p s'.
Proof.
  intros Hp Hj Hc Hnew (H0 & H1 & H2 & Hq & Hr & Hcl & Hcl').
  pose proof (lookup_lt_Some _ _ _ H2) as Hlt.
  unfold chain_inv. rewrite Hp, Hj, Hc.
  rewrite !lookup_app_l by lia.
  split_and!; try done.
  - intros q rs r [Hl|[_ Hl]]%lookup_app_Some Hin ? ?; [by eauto|].
    right. specialize (Hnew _ _ _ Hl Hin). lia.
  - apply elem_of_app. by left.
  - intros q [Hin|Hin%list_elem_of_singleton]%elem_of_app; [by auto|lia].
Qed.

Lemma chain_reactions k p i rs r :
  chain k p !! i = Some (Pending rs) → r ∈ rs →
  p ≤ derived r ∧ derived r < p + 3.
Proof.
  destruct i as [|[|[|i]]]; simpl; intros [= <-];
    try (intros ->%list_elem_of_singleton; simpl; lia).
  intros []%elem_of_nil.
Qed.

Lemma call_ids_app s c :
  (λ c : pid * ERC20Abi * request, c.1.1) <$> (calls s ++ [c])
  = call_ids s ++ [c.1.1].
Proof. unfold call_ids. by rewrite fmap_app. Qed.

Lemma table_wf_issued k c r s : table_wf s → table_wf (issued k c r s).
Proof.
  apply (table_wf_extend s _ (chain k (length (promises s)))); try done.
  - apply call_ids_app.
  - simpl. lia.
  - intros i rs r0 Hi Hin. apply (chain_reactions _ _ _ _ _ Hi) in Hin.
    simpl. lia.
Qed.

Lemma chain_inv_issued_old k p k' c r s :
  chain_inv k p s → chain_inv k p (issued k' c r s).
Proof.
  apply (chain_inv_extend k p s _ (chain k' (length (promises s)))); try done.
  - apply call_ids_app.
  - intros i rs r0 Hi Hin. apply (chain_reactions _ _ _ _ _ Hi) in Hin. lia.
Qed.

(** A trigger leaves the chain of its call in the table. *)
Lemma chain_inv_issued_new k c r s :
  table_wf s → chain_inv k (length (promises s)) (issued k c r s).
Proof.
  intros (Hr & Hq & Hcl). unfold chain_inv, issued, call_ids; simpl.
  rewrite fmap_app. simpl.
  split_and!.
  - rewrite lookup_app_r by lia. by rewrite Nat.sub_diag.
  - rewrite lookup_app_r by lia.
    by replace (length (promises s) + 1 - length (promises s)) with 1 by lia.
  - rewrite lookup_app_r by lia.
    by replace (length (promises s) + 2 - length (promises s)) with 2 by lia.
  - intros j Hin. left. eauto.
  - intros q rs r0 [Hl|[Hge Hl]]%lookup_app_Some Hin ? ?.
    + left. eauto.
    + destruct (q - length (promises s)) as [|[|[|i]]] eqn:Hi;
        simpl in Hl; try lia; simplify_eq.
      by apply elem_of_nil in Hin.
  - apply elem_of_app. right. by apply list_elem_of_singleton.
  - intros q [Hin|Hin%list_elem_of_singleton]%elem_of_app; [|lia].
    apply Hcl in Hin. lia.
Qed.

Lemma table_wf_step e s : table_wf s → table_wf (step e s).
Proof.
  intros Hwf. destruct e.
  - rewrite step_CallApprove. by apply table_wf_issued.
  - rewrite step_CallTransfer. by apply table_wf_issued.
  - rewrite step_CallTransferFrom. by apply table_wf_issued.
  - rewrite step_CallERC20.
    apply (table_wf_extend s _ [Pending []]); try done.
    + apply call_ids_app.
    + simpl. lia.
    + intros [|i] rs r0; simpl; [|done]. intros [= <-] []%elem_of_nil.
  - simpl. case_decide; [by apply table_wf_settle|done].
  - by apply table_wf_tick.
Qed.

Lemma table_wf_init : table_wf init.
Proof.
  unfold table_wf, init, call_ids; simpl.
  split_and!; intros *; try rewrite lookup_nil; try done.
  - by intros []%elem_of_nil.
  - by intros []%elem_of_nil.
Qed.

Lemma table_wf_run es s : table_wf s → table_wf (run es s).
Proof.
  revert s. induction es as [|e es IH]; intros s Hwf; [done|].
  simpl. apply IH. by apply table_wf_step.
Qed.

Lemma chain_inv_step k p e s :
  settles p e = false → chain_inv k p s → chain_inv k p (step e s).
Proof.
  intros He Hci. destruct e.
  - rewrite step_CallApprove. by apply chain_inv_issued_old.
  - rewrite step_CallTransfer. by apply chain_inv_issued_old.
  - rewrite step_CallTransferFrom. by apply chain_inv_issued_old.
  - rewrite step_CallERC20.
    apply (chain_inv_extend k p s _ [Pending []]); try done.
    + apply call_ids_app.
    + intros [|i] rs r0; simpl; [|done]. intros [= <-] []%elem_of_nil.
  - simpl in *. apply bool_decide_eq_false in He.
    case_decide as Hin; [|done]. apply chain_inv_settle; [|done].
    destruct Hci as (_ & _ & _ & _ & _ & _ & Hcl').
    apply Hcl' in Hin. unfold outside. lia.
  - by apply chain_inv_tick.
Qed.

Lemma chain_inv_run k p es s :
  Forall (λ e, settles p e = false) es →
  chain_inv k p s → chain_inv k p (run es s).
Proof.
  revert s. induction es as [|e es IH]; intros s Hes Hci; [done|].
  apply Forall_cons in Hes as [He Hes].
  simpl. apply IH; [done|]. by apply chain_inv_step.
Qed.

(** ** Draining the job queue *)

Lemma sum_list_with_insert {A} (f : A → nat) (l : list A) i x y :
  l !! i = Some x →
  sum_list_with f (<[i:=y]> l) + f x = sum_list_with f l + f y.
Proof.
  revert i. induction l as [|a l IH]; intros [|i]; simpl; try done.
  - intros [= ->]. lia.
  - intros Hi. specialize (IH _ Hi). lia.
Qed.

Lemma job_budget_settle d o s : job_budget (settle d o s) = job_budget s.
Proof.
  unfold settle. destruct (promises s !! d) as [[rs|o']|] eqn:Hd; [|done..].
  unfold job_budget; simpl. rewrite length_app, length_fmap.
  pose proof (sum_list_with_insert pending_reactions _ _ _ (Settled o) Hd).
  simpl in *. lia.
Qed.

Lemma job_budget_tick s : jobs s ≠ [] → S (job_budget (tick s)) = job_budget s.
Proof.
  intros Hne. unfold tick. destruct (jobs s) as [|[r o] js] eqn:Hjs; [done|].
  destruct (run_job_shape r o (set_jobs js s)) as (o' & s' & -> & Hp & Hj & _).
  rewrite job_budget_settle. unfold job_budget. rewrite Hp, Hj, Hjs. simpl. lia.
Qed.

Lemma drain_fuel_idle n s : jobs s = [] → drain_fuel n s = s.
Proof. intros Hj. destruct n; simpl; [done|]. by rewrite Hj. Qed.

Lemma drain_fuel_enough n m s :
  job_budget s ≤ n → job_budget s ≤ m → drain_fuel n s = drain_fuel m s.
Proof.
  revert m s. induction n as [|n IH]; intros m s Hn Hm.
  - assert (jobs s = []) as Hj.
    { unfold job_budget in Hn. destruct (jobs s); [done|simpl in Hn; lia]. }
    by rewrite !drain_fuel_idle.
  - destruct (jobs s) as [|j js] eqn:Hjs.
    { by rewrite !drain_fuel_idle. }
    assert (jobs s ≠ []) as Hne by (by rewrite Hjs).
    pose proof (job_budget_tick s Hne).
    destruct m as [|m]; [lia|]. simpl. rewrite Hjs. apply IH; lia.
Qed.

Lemma drain_idle s : jobs s = [] → drain s = s.
Proof. apply drain_fuel_idle. Qed.

Lemma drain_tick s : jobs s ≠ [] → drain s = drain (tick s).
Proof.
  intros Hne. pose proof (job_budget_tick s Hne) as Hb.
  unfold drain. rewrite <-Hb. simpl.
  destruct (jobs s); [done|]. apply drain_fuel_enough; lia.
Qed.

(** Draining ends, with an empty queue. *)
Lemma drain_quiescent s : jobs (drain s) = [].
Proof.
  unfold drain. generalize (Nat.le_refl (job_budget s)).
  generalize (job_budget s) at 2 3 as n. intros n. revert s.
  induction n as [|n IH]; intros s Hn; simpl.
  - unfold job_budget in Hn. destruct (jobs s); [done|simpl in Hn; lia].
  - destruct (jobs s) as [|j js] eqn:Hjs; [done|].
    apply IH. assert (jobs s ≠ []) as Hne by (by rewrite Hjs).
    pose proof (job_budget_tick s Hne). lia.
Qed.

Lemma drain_fuel_invariant (P : state → Prop) n s :
  (∀ s, P s → P (tick s)) → P s → P (drain_fuel n s).
Proof.
  intros Htick. revert s. induction n as [|n IH]; intros s Hs; simpl; [done|].
  destruct (jobs s); [done|]. by apply IH, Htick.
Qed.

Lemma table_wf_drain s : table_wf s → table_wf (drain s).
Proof. apply drain_fuel_invariant, table_wf_tick. Qed.

Lemma chain_inv_drain k p s : chain_inv k p s → chain_inv k p (drain s).
Proof. apply drain_fuel_invariant, chain_inv_tick. Qed.

(** Jobs run in the order they were queued: after as many ticks as there
    are jobs ahead of it, a job is the oldest one. *)
Lemma jobs_tick j js s :
  jobs s = j :: js → ∃ extra, jobs (tick s) = js ++ extra.
Proof.
  intros Hjs. unfold tick. rewrite Hjs. destruct j as [r o].
  destruct (run_job_shape r o (set_jobs js s)) as (o' & s' & -> & Hp & Hj & _).
  unfold settle. destruct (promises s' !! derived r) as [[rs|?]|];
    simpl; rewrite ?Hj; simpl; first [by eauto | exists []; by rewrite app_nil_r].
Qed.

Lemma run_ticks_fifo q j rest s :
  jobs s = q ++ j :: rest →
  ∃ extra, jobs (run (replicate (length q) Tick) s) = j :: rest ++ extra.
Proof.
  revert rest s. induction q as [|j0 q IH]; intros rest s Hjs; simpl in *.
  - exists []. by rewrite app_nil_r.
  - destruct (jobs_tick _ _ _ Hjs) as [extra Hex].
    rewrite <-app_assoc in Hex. simpl in Hex.
    destruct (IH _ _ Hex) as [extra' Hex'].
    exists (extra ++ extra'). by rewrite Hex', <-app_assoc.
Qed.

(** ** One call settling on an idle page

    When the call [p] of a chain settles while no job is queued, two jobs
    run: the reaction of [.then(setResult)] and the reaction of
    [.catch(setErr)].  The callback that matches the outcome runs once, and
    its completion settles the promise the trigger returned. *)
Lemma settle_idle k p o s :
  chain_inv k p s → jobs s = [] →
  drain (step (Settle p o) s)
  = let '(c, s1) :=
      run_handler
        (match o with Fulfilled _ => SetResult k | Rejected _ => SetErr k end)
        (payload o) s in
    set_promises
      (<[p + 2 := Settled (match c with
                           | Normal v => Fulfilled v
                           | Throw t => Rejected t
                           end)]>
         (<[p + 1 := Settled (match o with
                              | Fulfilled _ => Fulfilled VUndefined
                              | Rejected _ => o
                              end)]>
            (<[p := Settled o]> (promises s)))) s1.
Proof.
  intros (H0 & H1 & H2 & _ & _ & Hcl & _) Hj.
  destruct s as [h ps js t cs cl]. simpl in *. subst js.
  pose proof (lookup_lt_Some _ _ _ H0) as Hlt0.
  pose proof (lookup_lt_Some _ _ _ H1) as Hlt1.
  pose proof (lookup_lt_Some _ _ _ H2) as Hlt2.
  rewrite decide_True by done.
  unfold settle at 1; simpl. rewrite H0. simpl.
  rewrite drain_tick by done.
  destruct o as [T|R].
  - unfold tick at 1; simpl. unfold settle at 1; simpl.
    rewrite list_lookup_insert_ne, H1 by lia. simpl.
    rewrite drain_tick by done.
    unfold tick at 1; simpl. unfold settle at 1; simpl.
    rewrite !list_lookup_insert_ne, H2 by lia. simpl.
    by rewrite drain_idle.
  - unfold tick at 1; simpl. unfold settle at 1; simpl.
    rewrite list_lookup_insert_ne, H1 by lia. simpl.
    rewrite drain_tick by done.
    unfold tick at 1; simpl. unfold setErr; simpl.
    destruct (asError R h) as [[e|e] h']; simpl.
    + unfold settle at 1; simpl.
      rewrite !list_lookup_insert_ne, H2 by lia. simpl.
      by rewrite drain_idle.
    + unfold settle at 1; simpl.
      rewrite !list_lookup_insert_ne, H2 by lia. simpl.
      by rewrite drain_idle.
Qed.

Lemma run_cons e es s : run (e :: es) s = run es (step e s).
Proof. done. Qed.

Lemma run_app es1 es2 s : run (es1 ++ es2) s = run es2 (run es1 s).
Proof. unfold run. apply foldl_app. Qed.

Lemma settle_idle_recorded k p o s rec params :
  chain_inv k p s → jobs s = [] →
  recorded o (heap_of s) = Some rec →
  result k params (drain (step (Settle p o) s)) = Some rec
  ∧ promises (drain (step (Settle p o) s)) !! (p + 2)
    = Some (Settled (Fulfilled VUndefined)).
Proof.
  intros Hci Hj Hrec. rewrite (settle_idle k), result_lookup by done.
  destruct Hci as (_ & _ & H2%lookup_lt_Some & _).
  destruct o as [T|R]; simpl in *.
  - injection Hrec as <-. rewrite lookup_insert_eq.
    rewrite list_lookup_insert_eq; [done|]. by rewrite !length_insert.
  - unfold setErr. destruct (asError R (heap_of s)) as [[e|t] h']; [|done].
    injection Hrec as <-. simpl. rewrite lookup_insert_eq.
    rewrite list_lookup_insert_eq; [done|]. by rewrite !length_insert.
Qed.

(** C1.  From any state the page can be in, let the trigger of useApprove
    be invoked, and let anything follow except the settlement of that call.
    When the call then fulfils with [T], and the reaction jobs queued before
    it and its own have run, the result the hook returns is exactly
    [{transaction: T}], with no error field. *)
Theorem useApprove_fulfilled_result pre mid k params spender amount T :
  let s0 := run pre init in
  let p := length (promises s0) in
  let s := run (CallApprove k params spender amount :: mid) s0 in
  Forall (λ e, settles p e = false) mid →
  result k params
    (run (Settle p (Fulfilled T) :: replicate (S (length (jobs s))) Tick) s)
  = Some {| transaction := Some T; error := None |}.
Proof.
  intros s0 p s Hmid.
  assert (chain_inv k p s) as (H0 & _ & _ & _ & _ & Hcl & _).
  { unfold s. rewrite run_cons. apply chain_inv_run; [done|].
    rewrite step_CallApprove. apply chain_inv_issued_new, table_wf_run, table_wf_init. }
  rewrite replicate_S_end, run_cons, run_app.
  destruct (run_ticks_fifo (jobs s)
              (Reaction (Some (SetResult k)) None (p + 1), Fulfilled T) []
              (step (Settle p (Fulfilled T)) s)) as [extra Hex].
  { simpl. rewrite decide_True by done. unfold settle. by rewrite H0. }
  simpl in *. unfold tick. rewrite Hex. simpl.
  rewrite result_lookup, txns_settle.
  simpl. apply lookup_insert_eq.
Qed.

(** What a rejection that asError can turn into an Error leaves behind:
    from an idle page, the result is [{error: asError(R)}], and the promise
    the trigger returned fulfils. *)
Lemma useTransfer_rejected_result pre k params to amount R e h' :
  let s0 := drain (run pre init) in
  let p := length (promises s0) in
  let s1 := step (CallTransfer k params to amount) s0 in
  let s2 := drain (step (Settle p (Rejected R)) s1) in
  asError R (heap_of s0) = (Normal e, h') →
  result k params s2 = Some {| transaction := None; error := Some e |}
  ∧ promises s2 !! (p + 2) = Some (Settled (Fulfilled VUndefined)).
Proof.
  intros s0 p s1 s2 He. unfold s2, s1. rewrite step_CallTransfer.
  apply settle_idle_recorded.
  - apply chain_inv_issued_new, table_wf_drain, table_wf_run, table_wf_init.
  - apply drain_quiescent.
  - simpl. fold s0. by rewrite He.
Qed.

(** C2.  A transfer that rejects with a Symbol: [setErr] runs asError,
    which throws, so no result is stored (the hook still returns what it
    returned before), and the promise the trigger returned rejects with the
    TypeError. *)
Theorem useTransfer_Symbol_rejection pre k params to amount d :
  let s0 := drain (run pre init) in
  let p := length (promises s0) in
  let s1 := step (CallTransfer k params to amount) s0 in
  let s2 := drain (step (Settle p (Rejected (VSymbol d))) s1) in
  result k params s2 = result k params s0
  ∧ promises s2 !! (p + 2)
    = Some (Settled (Rejected (VObject (length (heap_of s0)))))
  ∧ instanceof_Error (heap_of s2) (VObject (length (heap_of s0))) = true.
Proof.
  intros s0 p s1 s2. unfold s2, s1. rewrite step_CallTransfer.
  assert (chain_inv k p (issued k (bound k params s0) (ReqTransfer to amount) s0))
    as Hci.
  { apply chain_inv_issued_new, table_wf_drain, table_wf_run, table_wf_init. }
  rewrite (settle_idle k); [|done|apply drain_quiescent].
  destruct Hci as (_ & _ & H2%lookup_lt_Some & _).
  rewrite !result_lookup. simpl. split_and!.
  - done.
  - rewrite list_lookup_insert_eq; [done|]. by rewrite !length_insert.
  - rewrite lookup_app_r by lia. by rewrite Nat.sub_diag.
Qed.

(** ** What the triggers return *)

Lemma trigger_chain k c r s o :
  table_wf s → jobs s = [] →
  let p := length (promises s) in
  let rs := (p <- contract_call c r ;;
             p' <- then_ p (SetResult k) ;; catch_ p' (SetErr k)) s in
  rs.1 = p + 2
  ∧ promises rs.2 !! (p + 2) = Some (Pending [])
  ∧ p ∈ call_ids rs.2
  ∧ txns rs.2 = txns s
  ∧ ∃ o', promises (drain (step (Settle p o) rs.2)) !! (p + 2)
          = Some (Settled o').
Proof.
  intros Hwf Hj p rs. unfold rs. rewrite chain_run. cbn [fst snd].
  pose proof (chain_inv_issued_new k c r s Hwf) as Hci.
  unfold issued in Hci.
  set (s' := State _ _ _ _ _ _).
  assert (chain_inv k p s') as Hci'.
  { revert Hci. by apply chain_inv_ext. }
  destruct Hci' as (H0 & H1 & H2 & Hrest).
  split_and!; try done.
  - by destruct Hrest as (_ & _ & ? & _).
  - rewrite (settle_idle k); [|done..].
    destruct (run_handler _ _ _) as [c0 s1]. simpl.
    eexists. apply list_lookup_insert_eq. rewrite !length_insert.
    by apply lookup_lt_Some in H2.
Qed.

(** C3.  The trigger of each write hook issues the call and returns at
    once, before any result is stored; but what it returns is a promise,
    the value of [.then(setResult).catch(setErr)]: it is pending when the
    trigger returns, and it settles once the call has settled and the two
    reactions have run. *)
Theorem triggers_return_the_chain_promise pre k params a b c o :
  let s := drain (run pre init) in
  let p := length (promises s) in
  let handed (rs : pid * state) :=
    rs.1 = p + 2
    ∧ promises rs.2 !! (p + 2) = Some (Pending [])
    ∧ p ∈ call_ids rs.2
    ∧ txns rs.2 = txns s
    ∧ ∃ o', promises (drain (step (Settle p o) rs.2)) !! (p + 2)
            = Some (Settled o') in
  handed ((useApprove k params s).1.1 a b (useApprove k params s).2)
  ∧ handed ((useTransfer k params s).1.1 a b (useTransfer k params s).2)
  ∧ handed ((useTransferFrom k params s).1.1 a b c (useTransferFrom k params s).2).
Proof.
  intros s p handed.
  set (s' := set_contracts (<[k := bound k params s]> (contracts s)) s).
  assert (table_wf s') as Hwf.
  { apply (table_wf_ext s); try done.
    apply table_wf_drain, table_wf_run, table_wf_init. }
  assert (jobs s' = []) as Hj by apply drain_quiescent.
  rewrite useApprove_unfold, useTransfer_unfold, useTransferFrom_unfold.
  cbn [fst snd]. fold s'. unfold handed.
  change (txns s) with (txns s'). change p with (length (promises s')).
  split_and!; by apply trigger_chain.
Qed.

(** ** The result record *)

Lemma txns_step_invariant (P : TransactionResult → Prop) e s :
  (∀ tx, P {| transaction := Some tx; error := None |}) →
  (∀ err, P {| transaction := None; error := Some err |}) →
  map_Forall (λ _, P) (txns s) → map_Forall (λ _, P) (txns (step e s)).
Proof.
  intros Htx Herr Hs. destruct e.
  - by rewrite step_CallApprove.
  - by rewrite step_CallTransfer.
  - by rewrite step_CallTransferFrom.
  - by rewrite step_CallERC20.
  - simpl. case_decide; [|done]. by rewrite txns_settle.
  - simpl. unfold tick. destruct (jobs s) as [|[r o] js]; [done|].
    unfold run_job.
    destruct (match o with Fulfilled _ => on_fulfilled r | Rejected _ => on_rejected r end)
      as [[k|k]|]; simpl.
    + rewrite txns_settle. simpl. by apply map_Forall_insert_2.
    + unfold setErr. simpl.
      destruct (asError (payload o) (heap_of s)) as [[err|t] h'];
        rewrite txns_settle; simpl; [|done].
      by apply map_Forall_insert_2.
    + by rewrite txns_settle.
Qed.

(** C7.  Whatever happens to the page, a result a write hook returns has
    at most one of its two fields: the only writers of the cell are
    [setResult], which stores [{transaction}], and [setErr], which stores
    [{error}]. *)
Theorem result_at_most_one_field es k params r :
  result k params (run es init) = Some r → at_most_one_field r.
Proof.
  rewrite result_lookup.
  assert (∀ s, map_Forall (λ _, at_most_one_field) (txns s) →
               map_Forall (λ _, at_most_one_field) (txns (run es s))) as Hall.
  { induction es as [|e es IH]; intros s Hs; [done|].
    rewrite run_cons. apply IH.
    apply txns_step_invariant; [by right|by left|done]. }
  intros Hr. apply (Hall init (map_Forall_empty _) k r Hr).
Qed.

(** ** Overlapping invocations *)

(** C8 (amended).  Two invocations of triggers of one hook instance, [eA]
    issued before [eB].  When one call settles, its reactions run, and then
    the other call settles, with an outcome that is stored (a fulfilment,
    or a rejection asError turns into an Error), the result is the record
    of the call that settled last, whichever was issued first; the earlier
    record is overwritten. *)
Theorem last_settlement_in_a_later_task_wins
    pre k params eA eB pFirst pLast oFirst oLast rec :
  let s0 := run pre init in
  let pA := length (promises s0) in
  let pB := length (promises (step eA s0)) in
  let s1 := run [eA; eB] s0 in
  let s2 := drain (step (Settle pFirst oFirst) s1) in
  write_call k eA = true → write_call k eB = true →
  (pFirst = pA ∧ pLast = pB) ∨ (pFirst = pB ∧ pLast = pA) →
  recorded oLast (heap_of s2) = Some rec →
  result k params (drain (step (Settle pLast oLast) s2)) = Some rec.
Proof.
  intros s0 pA pB s1 s2 HA HB Hord Hrec.
  assert (table_wf s0) as Hwf0 by apply table_wf_run, table_wf_init.
  destruct (step_write_call k eA s0 HA) as (cA & rA & HeA).
  destruct (step_write_call k eB (step eA s0) HB) as (cB & rB & HeB).
  assert (chain_inv k pA s1 ∧ chain_inv k pB s1) as [HciA HciB].
  { unfold s1. rewrite !run_cons. simpl. rewrite HeB. split.
    - apply chain_inv_issued_old. rewrite HeA. by apply chain_inv_issued_new.
    - apply chain_inv_issued_new. by apply table_wf_step. }
  assert (pA ≠ pB) as Hne.
  { unfold pB. rewrite HeA. simpl. rewrite length_app. simpl. unfold pA. lia. }
  apply settle_idle_recorded; [|apply drain_quiescent|done].
  apply chain_inv_drain, chain_inv_step.
  - simpl. apply bool_decide_eq_false. destruct Hord as [[-> ->]|[-> ->]]; done.
  - by destruct Hord as [[-> ->]|[-> ->]].
Qed.

(** ** The object useERC20 returns *)

Lemma contract_call_unfold c r s :
  contract_call c r s
  = (length (promises s),
     State (heap_of s) (promises s ++ [Pending []]) (jobs s) (txns s)
           (contracts s) (calls s ++ [(length (promises s), c, r)])).
Proof. done. Qed.

(** Every member is the method of the bound contract; the promise it
    returns has no reaction of the hooks on it, and a rejection settles it
    as it is: no job runs, no result cell changes, nothing is allocated. *)
Lemma member_is_contract_method k params s r R :
  let c := (useERC20 k params s).1 in
  let s1 := (useERC20 k params s).2 in
  let p := (member c r s1).1 in
  let s2 := (member c r s1).2 in
  let s3 := step (Settle p (Rejected R)) s2 in
  member c r = contract_call (bound k params s) r
  ∧ contracts s1 !! k = Some (bound k params s)
  ∧ promises s2 !! p = Some (Pending [])
  ∧ promises s3 !! p = Some (Settled (Rejected R))
  ∧ jobs s3 = jobs s ∧ txns s3 = txns s ∧ heap_of s3 = heap_of s.
Proof.
  intros c s1 p s2 s3.
  assert (member c r = contract_call (bound k params s) r) as Hm.
  { unfold c. rewrite useERC20_unfold. by destruct r. }
  unfold s3, s2, p. rewrite Hm. unfold s1. rewrite useERC20_unfold.
  rewrite contract_call_unfold.
  cbn [fst snd set_contracts promises jobs txns heap_of calls contracts].
  assert ((promises s ++ [Pending []]) !! length (promises s)
          = Some (Pending [])) as Hp.
  { rewrite lookup_app_r by lia. by rewrite Nat.sub_diag. }
  set (s2' := State _ _ _ _ _ _).
  assert (step (Settle (length (promises s)) (Rejected R)) s2'
          = set_jobs (jobs s2')
              (set_promises (<[length (promises s) := Settled (Rejected R)]>
                               (promises s2')) s2')) as ->.
  { simpl. rewrite decide_True.
    - unfold settle. simpl. rewrite Hp. simpl. by rewrite app_nil_r.
    - unfold call_ids. simpl. rewrite fmap_app. apply elem_of_app. right.
      by apply list_elem_of_singleton. }
  split_and!; try done.
  - simpl. apply lookup_insert_eq.
  - simpl. apply list_lookup_insert_eq. rewrite length_app. simpl. lia.
Qed.

(** C9.  The six read accessors of the object useERC20 returns are the
    methods of the bound contract themselves.  The promise of a read is
    handed to the caller as the contract made it, and when it rejects with
    [R] it is that promise which is rejected, with [R] itself: no reaction
    job is queued, asError allocates nothing, no result cell changes. *)
Theorem read_accessors_pass_through k params s r R :
  let c := (useERC20 k params s).1 in
  let s1 := (useERC20 k params s).2 in
  let p := (member c r s1).1 in
  let s2 := (member c r s1).2 in
  let s3 := step (Settle p (Rejected R)) s2 in
  is_read r = true →
  (name c = contract_name (bound k params s)
   ∧ symbol c = contract_symbol (bound k params s)
   ∧ decimals c = contract_decimals (bound k params s)
   ∧ totalSupply c = contract_totalSupply (bound k params s)
   ∧ balanceOf c = contract_balanceOf (bound k params s)
   ∧ allowance c = contract_allowance (bound k params s))
  ∧ member c r = contract_call (bound k params s) r
  ∧ contracts s1 !! k = Some (bound k params s)
  ∧ promises s2 !! p = Some (Pending [])
  ∧ promises s3 !! p = Some (Settled (Rejected R))
  ∧ jobs s3 = jobs s ∧ txns s3 = txns s ∧ heap_of s3 = heap_of s.
Proof.
  intros c s1 p s2 s3 _. split.
  - unfold c. by rewrite useERC20_unfold.
  - apply member_is_contract_method.
Qed.

(** C10.  The members approve, transfer and transferFrom of the object
    useERC20 returns are the raw methods of the bound contract as well.
    Called through this object, a write that rejects with [R] leaves a
    promise rejected with [R] itself in the caller's hands: [setErr] is not
    registered, so asError does not run and no result cell changes. *)
Theorem raw_writes_are_not_captured k params s r R :
  let c := (useERC20 k params s).1 in
  let s1 := (useERC20 k params s).2 in
  let p := (member c r s1).1 in
  let s2 := (member c r s1).2 in
  let s3 := step (Settle p (Rejected R)) s2 in
  is_read r = false →
  (approve c = contract_approve (bound k params s)
   ∧ transfer c = contract_transfer (bound k params s)
   ∧ transferFrom c = contract_transferFrom (bound k params s))
  ∧ member c r = contract_call (bound k params s) r
  ∧ promises s2 !! p = Some (Pending [])
  ∧ promises s3 !! p = Some (Settled (Rejected R))
  ∧ jobs s3 = jobs s ∧ txns s3 = txns s ∧ heap_of s3 = heap_of s
  ∧ result k params s3 = result k params s.
Proof.
  intros c s1 p s2 s3 _.
  pose proof (member_is_contract_method k params s r R)
    as (Hm & _ & Hp & Hs & Hj & Ht & Hh).
  split_and!; try done.
  - unfold c. by rewrite useERC20_unfold.
  - unfold c. by rewrite useERC20_unfold.
  - unfold c. by rewrite useERC20_unfold.
  - rewrite !result_lookup. by f_equal.
Qed.

(** * Further properties of the code *)

(** ** asError and the heap *)

Lemma asError_heap_app x h : ∃ new, (asError x h).2 = h ++ new.
Proof.
  unfold asError. destruct (instanceof_Error h x).
  { exists []. by rewrite app_nil_r. }
  destruct x; simpl; try by eexists [_].
  destruct (h !! l) as [[? ? []]|]; simpl; try by eexists [_].
  exists []. by rewrite app_nil_r.
Qed.

Lemma instanceof_Error_app h new e :
  instanceof_Error h e = true → instanceof_Error (h ++ new) e = true.
Proof.
  destruct e; simpl; try done.
  destruct (h !! l) as [o|] eqn:Hl; [|done].
  by rewrite (lookup_app_l_Some _ _ _ _ Hl).
Qed.




(** ** What changes a result, and what does not *)

(** X2.  Only a reaction job stores a result.  Invoking a trigger, calling
    a member of the useERC20 object and the settling of a call by the
    network leave every result cell and the heap as they were: a new
    invocation does not clear the result of the previous one. *)
Theorem only_reaction_jobs_store_results e s :
  e ≠ Tick → txns (step e s) = txns s ∧ heap_of (step e s) = heap_of s.
Proof.
  intros He. destruct e; try done.
  - by rewrite step_CallApprove.
  - by rewrite step_CallTransfer.
  - by rewrite step_CallTransferFrom.
  - by rewrite step_CallERC20.
  - simpl. case_decide; [|done]. by rewrite txns_settle, heap_of_settle.
Qed.

(** ** The contract of the first render *)

Lemma contracts_run_job j s : contracts (run_job j s) = contracts s.
Proof.
  destruct j as [r o]. unfold run_job.
  assert (∀ d o' s', contracts (settle d o' s') = contracts s') as Hs.
  { intros. apply settle_frame. }
  destruct (match o with Fulfilled _ => on_fulfilled r | Rejected _ => on_rejected r end)
    as [[k|k]|]; simpl; rewrite ?Hs; try done.
  unfold setErr. destruct (asError (payload o) (heap_of s)) as [[e|t] h'];
    by rewrite Hs.
Qed.

Lemma contracts_step k c e s :
  contracts s !! k = Some c → contracts (step e s) !! k = Some c.
Proof.
  intros Hc.
  assert (∀ k' params r, contracts (issued k' (bound k' params s) r s) !! k
                         = Some c) as Hissued.
  { intros k' params r. simpl. destruct (decide (k' = k)) as [->|Hne].
    - rewrite lookup_insert_eq. unfold bound. by rewrite Hc.
    - by rewrite lookup_insert_ne. }
  destruct e.
  - rewrite step_CallApprove. apply Hissued.
  - rewrite step_CallTransfer. apply Hissued.
  - rewrite step_CallTransferFrom. apply Hissued.
  - rewrite step_CallERC20. apply (Hissued k0 params ReqName).
  - simpl. case_decide; [|done].
    by destruct (settle_frame p o s) as (_ & _ & -> & _).
  - simpl. unfold tick. destruct (jobs s) as [|j js]; [done|].
    by rewrite contracts_run_job.
Qed.

Lemma contracts_run k c es s :
  contracts s !! k = Some c → contracts (run es s) !! k = Some c.
Proof.
  revert s. induction es as [|e es IH]; intros s Hc; [done|].
  rewrite run_cons. by apply IH, contracts_step.
Qed.

(** X1.  [useState] keeps the contract of the first render and the setter
    is never called: whatever happens afterwards, and whatever parameters
    later renders pass, a trigger issues its call on the contract that the
    first render connected. *)
Theorem contract_of_first_render_is_kept k params1 params2 es to amount s :
  contracts s !! k = None →
  let s1 := (useTransfer k params1 s).2 in
  let s2 := run es s1 in
  calls (step (CallTransfer k params2 to amount) s2)
  = calls s2 ++ [(length (promises s2),
                  connect (contractAddress params1) (ethereum params1),
                  ReqTransfer to amount)].
Proof.
  intros Hnone s1 s2.
  assert (contracts s2 !! k
          = Some (connect (contractAddress params1) (ethereum params1))) as Hc.
  { apply contracts_run. unfold s1. rewrite useTransfer_unfold. simpl.
    rewrite lookup_insert_eq. unfold bound. by rewrite Hnone. }
  rewrite step_CallTransfer. simpl. unfold bound. by rewrite Hc.
Qed.

(** ** A call that settles on an idle page *)

(** X3.  For each of the three write hooks and both outcomes: a trigger is
    invoked, anything follows except the settlement of its call, and the
    queued jobs run; when the call then settles with an outcome that is
    stored, the result of the hook is the record of that outcome, whatever
    was stored before. *)
Theorem write_hook_settled_result pre mid k params e o rec :
  let s0 := run pre init in
  let p := length (promises s0) in
  let s1 := drain (run (e :: mid) s0) in
  write_call k e = true →
  Forall (λ e', settles p e' = false) mid →
  recorded o (heap_of s1) = Some rec →
  result k params (drain (step (Settle p o) s1)) = Some rec.
Proof.
  intros s0 p s1 He Hmid Hrec.
  apply settle_idle_recorded; [|apply drain_quiescent|done].
  apply chain_inv_drain. rewrite run_cons. apply chain_inv_run; [done|].
  destruct (step_write_call k e s0 He) as (c & r & ->).
  apply chain_inv_issued_new, table_wf_run, table_wf_init.
Qed.

(** X4.  What the promise returned by a trigger settles with, in the same
    setting.  It never carries the transaction: it fulfils with undefined
    when the call fulfilled and when the rejection was stored, and it
    rejects exactly when asError threw, with the value asError threw. *)
Theorem trigger_promise_outcome pre mid k e o :
  let s0 := run pre init in
  let p := length (promises s0) in
  let s1 := drain (run (e :: mid) s0) in
  write_call k e = true →
  Forall (λ e', settles p e' = false) mid →
  promises (drain (step (Settle p o) s1)) !! (p + 2)
  = Some (Settled
            match o with
            | Fulfilled _ => Fulfilled VUndefined
            | Rejected R =>
                match asError R (heap_of s1) with
                | (Normal _, _) => Fulfilled VUndefined
                | (Throw t, _) => Rejected t
                end
            end).
Proof.
  intros s0 p s1 He Hmid.
  assert (chain_inv k p s1) as Hci.
  { apply chain_inv_drain. rewrite run_cons. apply chain_inv_run; [done|].
    destruct (step_write_call k e s0 He) as (c & r & ->).
    apply chain_inv_issued_new, table_wf_run, table_wf_init. }
  rewrite (settle_idle k); [|done|apply drain_quiescent].
  destruct Hci as (_ & _ & H2%lookup_lt_Some & _).
  destruct o as [T|R]; simpl.
  - rewrite list_lookup_insert_eq; [done|]. by rewrite !length_insert.
  - unfold setErr. destruct (asError R (heap_of s1)) as [[err|t] h']; simpl;
      (rewrite list_lookup_insert_eq; [done|]; by rewrite !length_insert).
Qed.

(** ** The error field *)

Lemma errors_are_Errors_step e s :
  errors_are_Errors s → errors_are_Errors (step e s).
Proof.
  intros Hs. destruct e.
  1-5: unfold errors_are_Errors;
    rewrite ?step_CallApprove, ?step_CallTransfer, ?step_CallTransferFrom,
      ?step_CallERC20; simpl; try case_decide;
    rewrite ?txns_settle, ?heap_of_settle; by apply Hs.
  simpl. unfold tick. destruct (jobs s) as [|[r o] js]; [done|].
  unfold run_job, errors_are_Errors.
  destruct (match o with Fulfilled _ => on_fulfilled r | Rejected _ => on_rejected r end)
    as [[k'|k']|]; simpl; rewrite ?txns_settle, ?heap_of_settle; simpl.
  - intros k r0 e. destruct (decide (k' = k)) as [->|Hk].
    + rewrite lookup_insert_eq. by intros [= <-].
    + rewrite lookup_insert_ne by done. apply Hs.
  - unfold setErr. simpl.
    destruct (asError_heap_app (payload o) (heap_of s)) as [new Hnew].
    destruct (asError (payload o) (heap_of s)) as [[err|t] h'] eqn:Ha;
      simpl in *; subst h'; rewrite ?txns_settle, ?heap_of_settle; simpl.
    + intros k r0 e. destruct (decide (k' = k)) as [->|Hk].
      * rewrite lookup_insert_eq. intros [= <-] [= <-].
        by apply (asError_result_instanceof _ _ _ _ Ha).
      * rewrite lookup_insert_ne by done. intros ? ?.
        apply instanceof_Error_app. by eapply Hs.
    + intros k r0 e ? ?. apply instanceof_Error_app. by eapply Hs.
  - apply Hs.
Qed.

(** X8.  The [error] field of a result always refers to an Error object:
    if it does in every cell at some point, it does after anything that
    happens next, since [setErr] stores what asError returned and the heap
    only grows. *)
Theorem error_field_is_an_Error es s k params r e :
  errors_are_Errors s →
  result k params (run es s) = Some r → error r = Some e →
  instanceof_Error (heap_of (run es s)) e = true.
Proof.
  intros Hs. rewrite result_lookup.
  assert (errors_are_Errors (run es s)) as Hrun.
  { revert s Hs. induction es as [|e' es IH]; intros s Hs; [done|].
    rewrite run_cons. by apply IH, errors_are_Errors_step. }
  apply Hrun.
Qed.

(** ** Two calls that settle in one task *)

Lemma two_chains_apart k p q s :
  chain_inv k p s → chain_inv k q s → p ≠ q → p + 3 ≤ q ∨ q + 3 ≤ p.
Proof.
  intros (H0p & H1p & H2p & _) (H0q & H1q & H2q & _) Hne.
  assert (p + 1 ≠ q) by (intros <-; rewrite H1p in H0q; discriminate).
  assert (p + 2 ≠ q) by (intros <-; rewrite H2p in H0q; discriminate).
  assert (q + 1 ≠ p) by (intros <-; rewrite H1q in H0p; discriminate).
  assert (q + 2 ≠ p) by (intros <-; rewrite H2q in H0p; discriminate).
  lia.
Qed.

Lemma step_Settle_call p o s :
  p ∈ call_ids s → step (Settle p o) s = settle p o s.
Proof. intros Hp. simpl. by rewrite decide_True. Qed.

Lemma call_ids_settle p o s : call_ids (settle p o s) = call_ids s.
Proof. unfold call_ids. by destruct (settle_frame p o s) as (_ & _ & _ & -> & _). Qed.

Ltac crank H :=
  rewrite drain_tick by done; unfold tick at 1; simpl;
  unfold settle at 1; simpl;
  rewrite ?list_lookup_insert_ne by lia; rewrite H; simpl.

Ltac crank_setErr Ha H :=
  rewrite drain_tick by done; unfold tick at 1; simpl;
  unfold setErr; simpl; rewrite Ha; simpl;
  unfold settle at 1; simpl;
  rewrite ?list_lookup_insert_ne by lia; rewrite H; simpl.

(** Both calls settle before any reaction runs.  The callbacks then run in
    the order of the settlements, except that the callback of a fulfilment
    runs before the callback of a rejection that settled earlier; apart
    from the promise table, the state is what the two callbacks leave. *)
Lemma settle_two_idle k p q oF oL s :
  chain_inv k p s → chain_inv k q s → p ≠ q → jobs s = [] →
  let os := match oF, oL with
            | Rejected _, Fulfilled _ => (oL, oF)
            | _, _ => (oF, oL)
            end in
  ∃ ps', drain (run [Settle p oF; Settle q oL] s)
         = set_promises ps' (store k os.2 (store k os.1 s)).
Proof.
  intros Hp Hq Hne Hj. cbv zeta.
  pose proof (two_chains_apart k p q s Hp Hq Hne) as Hapart.
  destruct Hp as (H0p & H1p & H2p & _ & _ & Hclp & _).
  destruct Hq as (H0q & H1q & H2q & _ & _ & Hclq & _).
  rewrite !run_cons. unfold run; cbn [foldl].
  rewrite (step_Settle_call p) by done.
  rewrite (step_Settle_call q) by (by rewrite call_ids_settle).
  destruct s as [h ps js t cs cl]. simpl in *. subst js.
  unfold settle at 2; simpl. rewrite H0p. simpl.
  unfold settle at 1; simpl.
  rewrite ?list_lookup_insert_ne by lia. rewrite H0q. simpl.
  unfold store, setErr.
  destruct oF as [TF|RF], oL as [TL|RL]; simpl.
  - eexists. crank H1p. crank H1q. crank H2p. crank H2q.
    by rewrite drain_idle.
  - destruct (asError RL h) as [[e|e] h'] eqn:Ha; simpl; eexists;
      crank H1p; crank H1q; crank H2p; crank_setErr Ha H2q;
      by rewrite drain_idle.
  - destruct (asError RF h) as [[e|e] h'] eqn:Ha; simpl; eexists;
      crank H1p; crank H1q; crank_setErr Ha H2p; crank H2q;
      by rewrite drain_idle.
  - destruct (asError RF h) as [[e|e] h'] eqn:Ha; simpl;
      destruct (asError RL h') as [[e'|e'] h''] eqn:Hb; simpl; eexists;
      crank H1p; crank H1q; crank_setErr Ha H2p; crank_setErr Hb H2q;
      by rewrite drain_idle.
Qed.

Lemma two_calls_installed pre k eA eB :
  let s0 := run pre init in
  let pA := length (promises s0) in
  let pB := length (promises (step eA s0)) in
  let s1 := drain (run [eA; eB] s0) in
  write_call k eA = true → write_call k eB = true →
  chain_inv k pA s1 ∧ chain_inv k pB s1 ∧ pA ≠ pB ∧ jobs s1 = [].
Proof.
  intros s0 pA pB s1 HA HB.
  assert (table_wf s0) as Hwf0 by apply table_wf_run, table_wf_init.
  destruct (step_write_call k eA s0 HA) as (cA & rA & HeA).
  destruct (step_write_call k eB (step eA s0) HB) as (cB & rB & HeB).
  split_and!.
  - apply chain_inv_drain. rewrite !run_cons. simpl. rewrite HeB.
    apply chain_inv_issued_old. rewrite HeA. by apply chain_inv_issued_new.
  - apply chain_inv_drain. rewrite !run_cons. simpl. rewrite HeB.
    apply chain_inv_issued_new. by apply table_wf_step.
  - unfold pB. rewrite HeA. simpl. rewrite length_app. simpl. unfold pA. lia.
  - apply drain_quiescent.
Qed.

(** X5.  Two invocations of triggers of one hook instance whose calls both
    fulfil before any reaction runs: the result is the transaction of the
    call that fulfilled last, whichever was issued first. *)
Theorem two_fulfilments_in_one_task
    pre k params eA eB pFirst pLast TF TL :
  let s0 := run pre init in
  let pA := length (promises s0) in
  let pB := length (promises (step eA s0)) in
  let s1 := drain (run [eA; eB] s0) in
  write_call k eA = true → write_call k eB = true →
  (pFirst = pA ∧ pLast = pB) ∨ (pFirst = pB ∧ pLast = pA) →
  result k params
    (drain (run [Settle pFirst (Fulfilled TF); Settle pLast (Fulfilled TL)] s1))
  = Some {| transaction := Some TL; error := None |}.
Proof.
  intros s0 pA pB s1 HA HB Hord.
  destruct (two_calls_installed pre k eA eB HA HB) as (HciA & HciB & Hne & Hj).
  fold s0 pA pB s1 in HciA, HciB, Hne, Hj.
  destruct (settle_two_idle k pFirst pLast (Fulfilled TF) (Fulfilled TL) s1)
    as [ps' ->]; try done.
  - by destruct Hord as [[-> ->]|[-> ->]].
  - by destruct Hord as [[-> ->]|[-> ->]].
  - by destruct Hord as [[-> ->]|[-> ->]].
  - rewrite result_lookup. simpl. apply lookup_insert_eq.
Qed.

(** X6.  Two invocations of triggers of one hook instance, of which one
    call rejects (with a reason asError turns into an Error) and the other
    fulfils, both before any reaction runs: the result is the error, in
    either order of settlement and of issue.  [setErr] runs one reaction
    job later than [setResult]. *)
Theorem rejection_in_one_task_wins
    pre k params eA eB pRejects pFulfils R T e h' :
  let s0 := run pre init in
  let pA := length (promises s0) in
  let pB := length (promises (step eA s0)) in
  let s1 := drain (run [eA; eB] s0) in
  write_call k eA = true → write_call k eB = true →
  (pRejects = pA ∧ pFulfils = pB) ∨ (pRejects = pB ∧ pFulfils = pA) →
  asError R (heap_of s1) = (Normal e, h') →
  result k params
    (drain (run [Settle pRejects (Rejected R); Settle pFulfils (Fulfilled T)] s1))
  = Some {| transaction := None; error := Some e |}
  ∧ result k params
      (drain (run [Settle pFulfils (Fulfilled T); Settle pRejects (Rejected R)] s1))
    = Some {| transaction := None; error := Some e |}.
Proof.
  intros s0 pA pB s1 HA HB Hord He.
  destruct (two_calls_installed pre k eA eB HA HB) as (HciA & HciB & Hne & Hj).
  fold s0 pA pB s1 in HciA, HciB, Hne, Hj.
  assert (chain_inv k pRejects s1 ∧ chain_inv k pFulfils s1
          ∧ pRejects ≠ pFulfils) as (HciR & HciT & Hne').
  { by destruct Hord as [[-> ->]|[-> ->]]. }
  split.
  - destruct (settle_two_idle k pRejects pFulfils (Rejected R) (Fulfilled T) s1)
      as [ps' ->]; try done.
    rewrite result_lookup. unfold store. simpl. unfold setErr. simpl.
    rewrite He. simpl. apply lookup_insert_eq.
  - destruct (settle_two_idle k pFulfils pRejects (Fulfilled T) (Rejected R) s1)
      as [ps' ->]; try done.
    rewrite result_lookup. unfold store. simpl. unfold setErr. simpl.
    rewrite He. simpl. apply lookup_insert_eq.
Qed.

(** ** Hook instances do not interfere *)

Lemma no_call_in_flight_ext k s s' :
  promises s' = promises s → jobs s' = jobs s →
  no_call_in_flight k s → no_call_in_flight k s'.
Proof. unfold no_call_in_flight. by intros -> ->. Qed.

Lemma no_call_in_flight_settle k d o s :
  no_call_in_flight k s → no_call_in_flight k (settle d o s).
Proof.
  intros (Hr & Hj). unfold settle.
  destruct (promises s !! d) as [[rs|o']|] eqn:Hd; [|done..].
  pose proof (lookup_lt_Some _ _ _ Hd) as Hlt.
  split; simpl.
  - intros q rs' r Hq Hin. destruct (decide (q = d)) as [->|Hne].
    + rewrite list_lookup_insert_eq in Hq by done. discriminate.
    + rewrite list_lookup_insert_ne in Hq by done. eauto.
  - intros j [Hin|Hin]%elem_of_app; [by auto|].
    apply list_elem_of_fmap in Hin as (r & -> & Hin). simpl. eauto.
Qed.

Lemma no_call_in_flight_extend k s s' new :
  promises s' = promises s ++ new → jobs s' = jobs s →
  (∀ i rs r, new !! i = Some (Pending rs) → r ∈ rs → ¬ reaction_for k r) →
  no_call_in_flight k s → no_call_in_flight k s'.
Proof.
  intros Hp Hj Hnew (Hr & Hq). unfold no_call_in_flight. rewrite Hp, Hj.
  split; [|done].
  intros q rs r [Hl|[_ Hl]]%lookup_app_Some Hin; eauto.
Qed.

Lemma chain_not_for k k' p i rs r :
  k' ≠ k → chain k' p !! i = Some (Pending rs) → r ∈ rs → ¬ reaction_for k r.
Proof.
  intros Hne Hi Hin (h & Hh & Hk).
  destruct i as [|[|[|i]]]; simpl in Hi; simplify_eq.
  - apply list_elem_of_singleton in Hin as ->. simpl in Hh.
    destruct Hh as [?|?]; by simplify_eq.
  - apply list_elem_of_singleton in Hin as ->. simpl in Hh.
    destruct Hh as [?|?]; by simplify_eq.
  - by apply elem_of_nil in Hin.
Qed.

Lemma run_handler_other k h v s :
  handler_instance h ≠ k → txns (run_handler h v s).2 !! k = txns s !! k.
Proof.
  intros Hne. destruct h as [k'|k']; simpl in *.
  - by rewrite lookup_insert_ne.
  - unfold setErr. destruct (asError v (heap_of s)) as [[e|t] h']; simpl;
      [by rewrite lookup_insert_ne|done].
Qed.

Lemma no_call_in_flight_step k e s :
  write_call k e = false → no_call_in_flight k s →
  no_call_in_flight k (step e s) ∧ txns (step e s) !! k = txns s !! k.
Proof.
  intros He Hs.
  assert (∀ k' c r, k' ≠ k →
            no_call_in_flight k (issued k' c r s)
            ∧ txns (issued k' c r s) !! k = txns s !! k) as Hissued.
  { intros k' c r Hne. split; [|done].
    apply (no_call_in_flight_extend k s _ (chain k' (length (promises s))));
      try done.
    intros i rs r0. by apply chain_not_for. }
  destruct e; simpl in He; try apply bool_decide_eq_false in He.
  - rewrite step_CallApprove. by apply Hissued.
  - rewrite step_CallTransfer. by apply Hissued.
  - rewrite step_CallTransferFrom. by apply Hissued.
  - rewrite step_CallERC20. split; [|done].
    apply (no_call_in_flight_extend k s _ [Pending []]); try done.
    intros [|i] rs r0; simpl; [|done]. intros [= <-] []%elem_of_nil.
  - simpl. case_decide; [|done].
    split; [by apply no_call_in_flight_settle|by rewrite txns_settle].
  - simpl. unfold tick. destruct (jobs s) as [|[r o] js] eqn:Hjs; [done|].
    destruct Hs as (Hr & Hq).
    assert (¬ reaction_for k r) as Hnot.
    { apply (Hq (r, o)). rewrite Hjs. by left. }
    assert (no_call_in_flight k (set_jobs js s)) as Hs'.
    { split; [done|]. simpl. intros j Hin. apply Hq. rewrite Hjs. by right. }
    unfold run_job.
    destruct (match o with Fulfilled _ => on_fulfilled r | Rejected _ => on_rejected r end)
      as [h|] eqn:Hh.
    + assert (handler_instance h ≠ k) as Hk.
      { intros Hk. apply Hnot. exists h. split; [|done].
        destruct o; [by left|by right]. }
      pose proof (run_handler_frame h (payload o) (set_jobs js s)) as (Hp & Hj & _).
      pose proof (run_handler_other k h (payload o) (set_jobs js s) Hk) as Ht.
      destruct (run_handler h (payload o) (set_jobs js s)) as [[v|t] s'];
        simpl in *; rewrite txns_settle;
        (split; [|done]); apply no_call_in_flight_settle;
        by apply (no_call_in_flight_ext k (set_jobs js s)).
    + rewrite txns_settle. split; [|done]. by apply no_call_in_flight_settle.
Qed.

(** X7.  A hook instance with no call in flight keeps its result whatever
    the other hook instances do: their invocations, settlements and
    reactions never write its cell. *)
Theorem idle_instance_keeps_its_result k params es s :
  no_call_in_flight k s →
  Forall (λ e, write_call k e = false) es →
  result k params (run es s) = result k params s.
Proof.
  rewrite !result_lookup. revert s.
  induction es as [|e es IH]; intros s Hs Hes; [done|].
  apply Forall_cons in Hes as [He Hes].
  destruct (no_call_in_flight_step k e s He Hs) as [Hs' Ht].
  rewrite run_cons, IH by done. done.
Qed.

(** ** Calls are issued once *)

Lemma calls_run_job j s : calls (run_job j s) = calls s.
Proof.
  destruct j as [r o].
  by destruct (run_job_shape r o s) as (o' & s' & -> & _ & _ & <-),
    (settle_frame (derived r) o' s') as (_ & _ & _ & -> & _).
Qed.

(** X11.  The hooks never issue a call on their own: the contract is
    called once for each invocation of a trigger or of a member, and never
    when a call settles or a reaction runs, whatever the outcome (no retry
    after a rejection, no second submission). *)
Theorem one_call_per_invocation es s :
  length (calls (run es s)) = length (calls s) + length (filter is_call es).
Proof.
  revert s. induction es as [|e es IH]; intros s; [simpl; lia|].
  rewrite run_cons, IH.
  assert (length (calls (step e s))
          = length (calls s) + (if is_call e then 1 else 0)) as ->.
  { destruct e; simpl is_call.
    - rewrite step_CallApprove. simpl. by rewrite length_app.
    - rewrite step_CallTransfer. simpl. by rewrite length_app.
    - rewrite step_CallTransferFrom. simpl. by rewrite length_app.
    - rewrite step_CallERC20. simpl. by rewrite length_app.
    - simpl. case_decide; [|lia].
      destruct (settle_frame p o s) as (_ & _ & _ & -> & _). lia.
    - simpl. unfold tick. destruct (jobs s) as [|j js]; [lia|].
      rewrite calls_run_job. simpl. lia. }
  rewrite filter_cons. destruct (is_call e); simpl; lia.
Qed.

End Runtime.

Arguments Normal {Number A} a.
Arguments Throw {Number A} v.

(** * Concrete runs, with [decimal] and [conversion_message] *)

(** C6 at a concrete input: [asError(Symbol("x"))] throws the TypeError. *)
Example asError_Symbol_run :
  asError decimal conversion_message (VSymbol (Some "x")) []
  = (Throw (VObject 0),
     [error_object (Number:=Z) "TypeError" (Some conversion_message)]).
Proof. reflexivity. Qed.

(** C2 at a concrete input: a first transfer that rejects with a Symbol
    leaves the result undefined, and the promise the trigger returned
    (number 2) rejected with the TypeError. *)
Example useTransfer_Symbol_run :
  result 0 {| ethereum := VNull; contractAddress := "0xToken" |}
    (drain decimal conversion_message
       (run decimal conversion_message
          [CallTransfer 0 {| ethereum := VNull; contractAddress := "0xToken" |}
             (VString "0xTo") (VBigInt 5);
           Settle 0 (Rejected (VSymbol (Some "x")))]
          init))
  = None
  ∧ promises
      (drain decimal conversion_message
         (run decimal conversion_message
            [CallTransfer 0 {| ethereum := VNull; contractAddress := "0xToken" |}
               (VString "0xTo") (VBigInt 5);
             Settle 0 (Rejected (VSymbol (Some "x")))]
            init)) !! 2
    = Some (Settled (Rejected (VObject 0))).
Proof. split; vm_compute; reflexivity. Qed.

(** C3 at a concrete input: the first approve on a fresh page returns
    promise number 2, which is pending. *)
Example useApprove_returns_run :
  (useApprove 0 {| ethereum := VNull; contractAddress := "0xToken" |} init).1.1
    (VString "0xSpender") (VBigInt (Number:=Z) 5)
    (useApprove 0 {| ethereum := VNull; contractAddress := "0xToken" |} init).2
  = (2,
     State [] (chain 0 0) [] ∅
       {[ 0 := connect "0xToken" VNull ]}
       [(0, connect "0xToken" VNull,
         ReqApprove (VString "0xSpender") (VBigInt 5))]).
Proof. reflexivity. Qed.

(** Witness of C1: the approve of hook 0 is followed by a read of the
    balance through hook 1, then fulfils. *)
Lemma useApprove_fulfilled_result_witness :
  Forall (λ e, settles (Number:=Z) 0 e = false)
    [CallERC20 1 {| ethereum := VNull; contractAddress := "0xToken" |}
       (ReqBalanceOf (VString "0xOwner"))]
  ∧ result 0
      {| ethereum := VNull; contractAddress := "0xToken" |}
      (run decimal conversion_message
         [CallApprove 0 {| ethereum := VNull; contractAddress := "0xToken" |}
            (VString "0xSpender") (VBigInt 5);
          CallERC20 1 {| ethereum := VNull; contractAddress := "0xToken" |}
            (ReqBalanceOf (VString "0xOwner"));
          Settle 0 (Fulfilled (VString "0xTx"));
          Tick]
         init)
    = Some {| transaction := Some (VString "0xTx"); error := None |}.
Proof.
  split.
  - repeat constructor.
  - pose proof (useApprove_fulfilled_result decimal conversion_message []
                  [CallERC20 1
                     {| ethereum := VNull; contractAddress := "0xToken" |}
                     (ReqBalanceOf (VString "0xOwner"))]
                  0 {| ethereum := VNull; contractAddress := "0xToken" |}
                  (VString "0xSpender") (VBigInt 5) (VString "0xTx")
                  ltac:(repeat constructor)) as Hresult.
    vm_compute in Hresult. vm_compute. exact Hresult.
Defined.

(** Counterexample to C4: asError(42) is an Error whose message is the
    string "42", not the number 42; the claim that the message equals the
    input fails. *)
Lemma asError_message_is_not_the_input :
  ¬ (∀ (x : value (Number:=Z)) h,
       instanceof_Error h x = false →
       ∃ e h', asError decimal conversion_message x h = (Normal e, h')
               ∧ instanceof_Error h' e = true
               ∧ own_message h' e = Some x).
Proof.
  intros Hclaim.
  destruct (Hclaim (VNumber 42%Z) [] eq_refl) as (e & h' & He & _ & Hm).
  vm_compute in He. injection He as <- <-. vm_compute in Hm. discriminate.
Qed.

(** Witness of C4 (amended), at the same input. *)
Lemma asError_message_is_string_conversion_witness :
  instanceof_Error (Number:=Z) [] (VNumber 42%Z) = false
  ∧ ToString decimal conversion_message
      (VNumber 42%Z) [] = (Normal "42", [])
  ∧ ∃ h', asError decimal conversion_message
            (VNumber 42%Z) [] = (Normal (VObject 0), h')
    ∧ instanceof_Error [] (VObject (Number:=Z) 0) = false
    ∧ instanceof_Error h' (VObject 0) = true
    ∧ own_message h' (VObject 0) = Some (VString "42")
    ∧ (∀ s0, VNumber 42%Z = VString s0 →
             own_message h' (VObject 0) = Some (VNumber 42%Z)).
Proof.
  split; [reflexivity|]. split; [reflexivity|].
  apply (asError_message_is_string_conversion decimal conversion_message
           (VNumber 42%Z) [] "42" []); reflexivity.
Defined.


(** Witness of C7. *)
Lemma result_at_most_one_field_witness :
  result 0
    {| ethereum := VNull; contractAddress := "0xToken" |}
    (run decimal conversion_message
       [CallTransfer 0 {| ethereum := VNull; contractAddress := "0xToken" |}
          (VString "0xTo") (VBigInt 5);
        Settle 0 (Rejected (VString "execution reverted"));
        Tick; Tick]
       init)
  = Some {| transaction := None; error := Some (VObject (Number:=Z) 0) |}
  ∧ at_most_one_field
      {| transaction := None; error := Some (VObject (Number:=Z) 0) |}.
Proof.
  split; [reflexivity|].
  apply (result_at_most_one_field decimal conversion_message
           [CallTransfer 0 {| ethereum := VNull; contractAddress := "0xToken" |}
              (VString "0xTo") (VBigInt 5);
            Settle 0 (Rejected (VString "execution reverted"));
            Tick; Tick]
           0 {| ethereum := VNull; contractAddress := "0xToken" |}).
  reflexivity.
Defined.

(** Counterexample to C8.  Transfer A is issued before transfer B.  B
    rejects, and before its reactions have run A fulfils: A settles last.
    The record of a rejection is stored one reaction job later than the
    record of a fulfilment, so the final result is B's error, not A's
    transaction. *)
Lemma earlier_rejection_overwrites_later_fulfilment :
  result 0
    {| ethereum := VNull; contractAddress := "0xToken" |}
    (drain decimal conversion_message
       (run decimal conversion_message
          [CallTransfer 0 {| ethereum := VNull; contractAddress := "0xToken" |}
             (VString "0xA") (VBigInt 1);
           CallTransfer 0 {| ethereum := VNull; contractAddress := "0xToken" |}
             (VString "0xB") (VBigInt 2);
           Settle 3 (Rejected (VString "execution reverted"));
           Settle 0 (Fulfilled (VString "0xTxA"))]
          init))
  = Some {| transaction := None; error := Some (VObject (Number:=Z) 0) |}
  ∧ result 0
      {| ethereum := VNull; contractAddress := "0xToken" |}
      (drain decimal conversion_message
         (run decimal conversion_message
            [CallTransfer 0 {| ethereum := VNull; contractAddress := "0xToken" |}
               (VString "0xA") (VBigInt 1);
             CallTransfer 0 {| ethereum := VNull; contractAddress := "0xToken" |}
               (VString "0xB") (VBigInt 2);
             Settle 3 (Rejected (VString "execution reverted"));
             Settle 0 (Fulfilled (VString "0xTxA"))]
            init))
    ≠ Some {| transaction := Some (VString "0xTxA"); error := None |}.
Proof.
  split; [vm_compute; reflexivity|]. vm_compute. discriminate.
Qed.

(** Witness of C8 (amended): B rejects and its reactions run, then A
    fulfils; the result is A's transaction. *)
Lemma last_settlement_in_a_later_task_wins_witness :
  write_call (Number:=Z) 0
    (CallTransfer 0 {| ethereum := VNull; contractAddress := "0xToken" |}
       (VString "0xA") (VBigInt 1)) = true
  ∧ write_call (Number:=Z) 0
      (CallTransfer 0 {| ethereum := VNull; contractAddress := "0xToken" |}
         (VString "0xB") (VBigInt 2)) = true
  ∧ result 0
      {| ethereum := VNull; contractAddress := "0xToken" |}
      (drain decimal conversion_message
         (step decimal conversion_message
            (Settle 0 (Fulfilled (VString "0xTxA")))
            (drain decimal conversion_message
               (step decimal conversion_message
                  (Settle 3 (Rejected (VString "execution reverted")))
                  (run decimal conversion_message
                     [CallTransfer 0
                        {| ethereum := VNull; contractAddress := "0xToken" |}
                        (VString "0xA") (VBigInt 1);
                      CallTransfer 0
                        {| ethereum := VNull; contractAddress := "0xToken" |}
                        (VString "0xB") (VBigInt 2)]
                     (run decimal conversion_message
                        [] init))))))
    = Some {| transaction := Some (VString "0xTxA"); error := None |}.
Proof.
  split; [reflexivity|]. split; [reflexivity|].
  apply (last_settlement_in_a_later_task_wins decimal conversion_message [] 0
           {| ethereum := VNull; contractAddress := "0xToken" |}
           (CallTransfer 0 {| ethereum := VNull; contractAddress := "0xToken" |}
              (VString "0xA") (VBigInt 1))
           (CallTransfer 0 {| ethereum := VNull; contractAddress := "0xToken" |}
              (VString "0xB") (VBigInt 2))
           3 0 (Rejected (VString "execution reverted"))
           (Fulfilled (VString "0xTxA"))).
  - reflexivity.
  - reflexivity.
  - right. split; reflexivity.
  - reflexivity.
Defined.

(** Witness of C9: a balance query that rejects. *)
Lemma read_accessors_pass_through_witness :
  is_read (Number:=Z) (ReqBalanceOf (VString "0xOwner")) = true
  ∧ promises
      (run decimal conversion_message
         [CallERC20 0 {| ethereum := VNull; contractAddress := "0xToken" |}
            (ReqBalanceOf (VString "0xOwner"));
          Settle 0 (Rejected (VString "network error"))]
         init) !! 0
    = Some (Settled (Rejected (VString "network error"))).
Proof.
  split; [reflexivity|].
  destruct (read_accessors_pass_through decimal conversion_message 0
              {| ethereum := VNull; contractAddress := "0xToken" |} init
              (ReqBalanceOf (VString "0xOwner")) (VString "network error")
              eq_refl) as (_ & _ & _ & _ & Hrejected & _).
  exact Hrejected.
Defined.

(** Witness of C10: a transfer called on the object of useERC20 that
    rejects. *)
Lemma raw_writes_are_not_captured_witness :
  is_read (Number:=Z) (ReqTransfer (VString "0xTo") (VBigInt 5)) = false
  ∧ result 0
      {| ethereum := VNull; contractAddress := "0xToken" |}
      (run decimal conversion_message
         [CallERC20 0 {| ethereum := VNull; contractAddress := "0xToken" |}
            (ReqTransfer (VString "0xTo") (VBigInt 5));
          Settle 0 (Rejected (VString "execution reverted"))]
         init)
    = None.
Proof.
  split; [reflexivity|].
  destruct (raw_writes_are_not_captured decimal conversion_message 0
              {| ethereum := VNull; contractAddress := "0xToken" |} init
              (ReqTransfer (VString "0xTo") (VBigInt 5))
              (VString "execution reverted") eq_refl)
    as (_ & _ & _ & _ & _ & _ & _ & Hresult).
  exact Hresult.
Defined.

(** * Concrete runs for the further properties *)

(** Witness of X1: the hook is first rendered for one token and later
    invoked with the address of another. *)
Lemma contract_of_first_render_is_kept_witness :
  contracts (Number:=Z) init !! 0 = None
  ∧ calls
      (step decimal conversion_message
         (CallTransfer 0 {| ethereum := VNull; contractAddress := "0xOther" |}
            (VString "0xTo") (VBigInt 5))
         (run decimal conversion_message []
            (useTransfer 0
               {| ethereum := VNull; contractAddress := "0xToken" |} init).2))
    = [(0, connect "0xToken" VNull, ReqTransfer (VString "0xTo") (VBigInt 5))].
Proof.
  split; [reflexivity|].
  exact (contract_of_first_render_is_kept decimal conversion_message 0
           {| ethereum := VNull; contractAddress := "0xToken" |}
           {| ethereum := VNull; contractAddress := "0xOther" |}
           [] (VString "0xTo") (VBigInt 5) init eq_refl).
Defined.

(** Witness of X2: a second invocation after a stored result. *)
Lemma only_reaction_jobs_store_results_witness :
  CallApprove (Number:=Z) 0
    {| ethereum := VNull; contractAddress := "0xToken" |}
    (VString "0xSpender") (VBigInt 7) ≠ Tick
  ∧ txns
      (run decimal conversion_message
         [CallApprove 0 {| ethereum := VNull; contractAddress := "0xToken" |}
            (VString "0xSpender") (VBigInt 5);
          Settle 0 (Fulfilled (VString "0xTx"));
          Tick;
          CallApprove 0 {| ethereum := VNull; contractAddress := "0xToken" |}
            (VString "0xSpender") (VBigInt 7)]
         init) !! 0
    = Some {| transaction := Some (VString "0xTx"); error := None |}.
Proof.
  split; [discriminate|].
  pose proof (only_reaction_jobs_store_results decimal conversion_message
                (CallApprove 0
                   {| ethereum := VNull; contractAddress := "0xToken" |}
                   (VString "0xSpender") (VBigInt 7))
                (run decimal conversion_message
                   [CallApprove 0
                      {| ethereum := VNull; contractAddress := "0xToken" |}
                      (VString "0xSpender") (VBigInt 5);
                    Settle 0 (Fulfilled (VString "0xTx"));
                    Tick]
                   init)
                ltac:(discriminate)) as [Htxns _].
  change (run decimal conversion_message [?a; ?b; ?c; ?d] init)
    with (step decimal conversion_message d
            (run decimal conversion_message [a; b; c] init)).
  rewrite Htxns. vm_compute. reflexivity.
Defined.

(** Witness of X3: a transferFrom that rejects with a string. *)
Lemma write_hook_settled_result_witness :
  write_call (Number:=Z) 0
    (CallTransferFrom 0 {| ethereum := VNull; contractAddress := "0xToken" |}
       (VString "0xFrom") (VString "0xTo") (VBigInt 5)) = true
  ∧ result 0 {| ethereum := VNull; contractAddress := "0xToken" |}
      (drain decimal conversion_message
         (step decimal conversion_message
            (Settle 0 (Rejected (VString "insufficient allowance")))
            (drain decimal conversion_message
               (run decimal conversion_message
                  [CallTransferFrom 0
                     {| ethereum := VNull; contractAddress := "0xToken" |}
                     (VString "0xFrom") (VString "0xTo") (VBigInt 5)]
                  init))))
    = Some {| transaction := None; error := Some (VObject (Number:=Z) 0) |}.
Proof.
  split; [reflexivity|].
  pose proof (write_hook_settled_result decimal conversion_message [] [] 0
                {| ethereum := VNull; contractAddress := "0xToken" |}
                (CallTransferFrom 0
                   {| ethereum := VNull; contractAddress := "0xToken" |}
                   (VString "0xFrom") (VString "0xTo") (VBigInt 5))
                (Rejected (VString "insufficient allowance"))
                {| transaction := None; error := Some (VObject 0) |}
                eq_refl ltac:(constructor) eq_refl) as Hresult.
  vm_compute in Hresult. vm_compute. exact Hresult.
Defined.

(** Witness of X4: a transfer that rejects with a Symbol; the promise the
    trigger returned rejects with the TypeError. *)
Lemma trigger_promise_outcome_witness :
  write_call (Number:=Z) 0
    (CallTransfer 0 {| ethereum := VNull; contractAddress := "0xToken" |}
       (VString "0xTo") (VBigInt 5)) = true
  ∧ promises
      (drain decimal conversion_message
         (step decimal conversion_message
            (Settle 0 (Rejected (VSymbol None)))
            (drain decimal conversion_message
               (run decimal conversion_message
                  [CallTransfer 0
                     {| ethereum := VNull; contractAddress := "0xToken" |}
                     (VString "0xTo") (VBigInt 5)]
                  init)))) !! 2
    = Some (Settled (Rejected (VObject (Number:=Z) 0))).
Proof.
  split; [reflexivity|].
  pose proof (trigger_promise_outcome decimal conversion_message [] [] 0
                (CallTransfer 0
                   {| ethereum := VNull; contractAddress := "0xToken" |}
                   (VString "0xTo") (VBigInt 5))
                (Rejected (VSymbol None))
                eq_refl ltac:(constructor)) as Hpromise.
  vm_compute in Hpromise. vm_compute. exact Hpromise.
Defined.

(** Witness of X5: A issued first, B fulfils first, A last. *)
Lemma two_fulfilments_in_one_task_witness :
  write_call (Number:=Z) 0
    (CallApprove 0 {| ethereum := VNull; contractAddress := "0xToken" |}
       (VString "0xSpender") (VBigInt 1)) = true
  ∧ result 0 {| ethereum := VNull; contractAddress := "0xToken" |}
      (drain decimal conversion_message
         (run decimal conversion_message
            [Settle 3 (Fulfilled (VString "0xTxB"));
             Settle 0 (Fulfilled (VString "0xTxA"))]
            (drain decimal conversion_message
               (run decimal conversion_message
                  [CallApprove 0
                     {| ethereum := VNull; contractAddress := "0xToken" |}
                     (VString "0xSpender") (VBigInt 1);
                   CallApprove 0
                     {| ethereum := VNull; contractAddress := "0xToken" |}
                     (VString "0xSpender") (VBigInt 2)]
                  init))))
    = Some {| transaction := Some (VString "0xTxA"); error := None |}.
Proof.
  split; [reflexivity|].
  pose proof (two_fulfilments_in_one_task decimal conversion_message [] 0
                {| ethereum := VNull; contractAddress := "0xToken" |}
                (CallApprove 0
                   {| ethereum := VNull; contractAddress := "0xToken" |}
                   (VString "0xSpender") (VBigInt 1))
                (CallApprove 0
                   {| ethereum := VNull; contractAddress := "0xToken" |}
                   (VString "0xSpender") (VBigInt 2))
                3 0 (VString "0xTxB") (VString "0xTxA")
                eq_refl eq_refl (or_intror (conj eq_refl eq_refl))) as Hresult.
  vm_compute in Hresult. vm_compute. exact Hresult.
Defined.

(** Witness of X6: B rejects and A fulfils in one task, in both orders. *)
Lemma rejection_in_one_task_wins_witness :
  asError decimal conversion_message (VString "execution reverted") []
  = (Normal (VObject 0), [error_object "Error" (Some "execution reverted")])
  ∧ result 0 {| ethereum := VNull; contractAddress := "0xToken" |}
      (drain decimal conversion_message
         (run decimal conversion_message
            [Settle 0 (Fulfilled (VString "0xTxA"));
             Settle 3 (Rejected (VString "execution reverted"))]
            (drain decimal conversion_message
               (run decimal conversion_message
                  [CallTransfer 0
                     {| ethereum := VNull; contractAddress := "0xToken" |}
                     (VString "0xA") (VBigInt 1);
                   CallTransfer 0
                     {| ethereum := VNull; contractAddress := "0xToken" |}
                     (VString "0xB") (VBigInt 2)]
                  init))))
    = Some {| transaction := None; error := Some (VObject (Number:=Z) 0) |}.
Proof.
  split; [reflexivity|].
  pose proof (rejection_in_one_task_wins decimal conversion_message [] 0
                {| ethereum := VNull; contractAddress := "0xToken" |}
                (CallTransfer 0
                   {| ethereum := VNull; contractAddress := "0xToken" |}
                   (VString "0xA") (VBigInt 1))
                (CallTransfer 0
                   {| ethereum := VNull; contractAddress := "0xToken" |}
                   (VString "0xB") (VBigInt 2))
                3 0 (VString "execution reverted") (VString "0xTxA")
                (VObject 0) [error_object "Error" (Some "execution reverted")]
                eq_refl eq_refl (or_intror (conj eq_refl eq_refl)) eq_refl)
    as [_ Hresult].
  vm_compute in Hresult. vm_compute. exact Hresult.
Defined.

(** Witness of X7: hook 0 holds a transaction and has nothing in flight;
    a transfer of hook 1 is issued, rejects and is stored. *)
Lemma idle_instance_keeps_its_result_witness :
  Forall (λ e, write_call (Number:=Z) 0 e = false)
    [CallTransfer 1 {| ethereum := VNull; contractAddress := "0xToken" |}
       (VString "0xTo") (VBigInt 5);
     Settle 3 (Rejected (VString "execution reverted")); Tick; Tick]
  ∧ result 0 {| ethereum := VNull; contractAddress := "0xToken" |}
      (run decimal conversion_message
         [CallTransfer 1 {| ethereum := VNull; contractAddress := "0xToken" |}
            (VString "0xTo") (VBigInt 5);
          Settle 3 (Rejected (VString "execution reverted")); Tick; Tick]
         (run decimal conversion_message
            [CallApprove 0 {| ethereum := VNull; contractAddress := "0xToken" |}
               (VString "0xSpender") (VBigInt 5);
             Settle 0 (Fulfilled (VString "0xTx")); Tick; Tick]
            init))
    = Some {| transaction := Some (VString "0xTx"); error := None |}.
Proof.
  split; [repeat constructor|].
  assert (no_call_in_flight 0
            (run decimal conversion_message
               [CallApprove 0
                  {| ethereum := VNull; contractAddress := "0xToken" |}
                  (VString "0xSpender") (VBigInt 5);
                Settle 0 (Fulfilled (VString "0xTx")); Tick; Tick]
               init)) as Hidle.
  { split.
    - intros [|[|[|q]]] rs r Hq; vm_compute in Hq; discriminate.
    - intros j Hin. vm_compute in Hin. by apply elem_of_nil in Hin. }
  pose proof (idle_instance_keeps_its_result decimal conversion_message 0
                {| ethereum := VNull; contractAddress := "0xToken" |}
                [CallTransfer 1
                   {| ethereum := VNull; contractAddress := "0xToken" |}
                   (VString "0xTo") (VBigInt 5);
                 Settle 3 (Rejected (VString "execution reverted")); Tick; Tick]
                _ Hidle ltac:(repeat constructor)) as Hresult.
  rewrite Hresult. vm_compute. reflexivity.
Defined.

(** Witness of X8: the error stored for a string rejection. *)
Lemma error_field_is_an_Error_witness :
  result 0 {| ethereum := VNull; contractAddress := "0xToken" |}
    (run decimal conversion_message
       [CallTransfer 0 {| ethereum := VNull; contractAddress := "0xToken" |}
          (VString "0xTo") (VBigInt 5);
        Settle 0 (Rejected (VString "execution reverted")); Tick; Tick]
       init)
  = Some {| transaction := None; error := Some (VObject (Number:=Z) 0) |}
  ∧ instanceof_Error
      (heap_of
         (run decimal conversion_message
            [CallTransfer 0 {| ethereum := VNull; contractAddress := "0xToken" |}
               (VString "0xTo") (VBigInt 5);
             Settle 0 (Rejected (VString "execution reverted")); Tick; Tick]
            init))
      (VObject 0) = true.
Proof.
  split; [reflexivity|].
  apply (error_field_is_an_Error decimal conversion_message
           [CallTransfer 0 {| ethereum := VNull; contractAddress := "0xToken" |}
              (VString "0xTo") (VBigInt 5);
            Settle 0 (Rejected (VString "execution reverted")); Tick; Tick]
           init 0 {| ethereum := VNull; contractAddress := "0xToken" |}
           {| transaction := None; error := Some (VObject 0) |} (VObject 0)).
  - intros k r e Hk. vm_compute in Hk. discriminate.
  - reflexivity.
  - reflexivity.
Defined.

